(** * MoodMuse: the track-resolution and playlist-expansion pipeline

    A shallow embedding of the pure and effectful code of
    [services/musicService.ts] (the string normalizer [cleanString], the
    resilient fetch [fetchWithRetry], the track resolver
    [fetchTrackDetails]), of [services/geminiService.ts] ([getRefinedSongs],
    [getPivotSongs]) and of the playlist handlers of [App.tsx]
    ([handleNext], [handlePivot], [handleLike], [addSongsToPlaylist]).

    JavaScript strings are sequences of UTF-16 code units and are modelled
    as lists of [N].  Asynchronous functions are modelled in a state and
    exception monad over the trace of the effects they perform; the
    handlers of the component are modelled as transitions on the shared
    application state, split at their one suspension point (the call of
    the AI service). *)

From Stdlib Require Import List String Ascii NArith ZArith QArith Bool Arith Lia.
From Stdlib Require DecimalString.
Import ListNotations.
Close Scope Q_scope.

(* ================================================================== *)
(** ** JavaScript strings *)
(* ================================================================== *)

Module JsString.
Local Open Scope N_scope.

(** A string value is a finite sequence of 16-bit code units. *)
Definition code_unit := N.
Definition jsstring := list code_unit.

(** String literals of the source are ASCII; [js] injects them. *)
Definition js (s : string) : jsstring :=
  List.map N_of_ascii (list_ascii_of_string s).
Arguments js s%_string.

Fixpoint str_eqb (a b : jsstring) : bool :=
  match a, b with
  | [], [] => true
  | x :: a', y :: b' => N.eqb x y && str_eqb a' b'
  | _, _ => false
  end.

(** [startsWith p s]: [p] is a prefix of [s]. *)
Fixpoint startsWith (p s : jsstring) : bool :=
  match p, s with
  | [], _ => true
  | x :: p', y :: s' => N.eqb x y && startsWith p' s'
  | _ :: _, [] => false
  end.

(** [String.prototype.includes]: [needle] occurs in [hay]. *)
Fixpoint includes (needle hay : jsstring) : bool :=
  startsWith needle hay ||
  match hay with
  | [] => false
  | _ :: hay' => includes needle hay'
  end.

(** [s.split(sep)[0]] for a non-empty separator: the text before the
    first occurrence of [sep], the whole of [s] when there is none. *)
Fixpoint split_first (sep s : jsstring) : jsstring :=
  if startsWith sep s then []
  else match s with
       | [] => []
       | c :: s' => c :: split_first sep s'
       end.

(** WhiteSpace and LineTerminator code points, as [trim] strips them. *)
Definition is_ws (c : code_unit) : bool :=
  ((9 <=? c) && (c <=? 13)) || (c =? 32) || (c =? 160) || (c =? 5760)
  || ((8192 <=? c) && (c <=? 8202)) || (c =? 8232) || (c =? 8233)
  || (c =? 8239) || (c =? 8287) || (c =? 12288) || (c =? 65279).

Fixpoint trimStart (s : jsstring) : jsstring :=
  match s with
  | [] => []
  | c :: s' => if is_ws c then trimStart s' else s
  end.

Fixpoint trimEnd (s : jsstring) : jsstring :=
  match s with
  | [] => []
  | c :: s' =>
      match trimEnd s' with
      | [] => if is_ws c then [] else [c]
      | t => c :: t
      end
  end.

Definition trim (s : jsstring) : jsstring := trimEnd (trimStart s).

(** ASCII case folding, used for the literals of the [/i] patterns.
    Without the [u] flag a pattern letter matches exactly its two ASCII
    variants: canonicalization never maps a code unit above 127 to one
    below 128. *)
Definition ascii_lower (c : code_unit) : code_unit :=
  if (65 <=? c) && (c <=? 90) then c + 32 else c.

End JsString.
Import JsString.

(* ================================================================== *)
(** ** The regular expressions of [cleanString] *)
(* ================================================================== *)

Module Regex.
Local Open Scope N_scope.

(** The patterns of the source are sequences of single-character atoms
    and of starred character classes, lazy ([.*?]) or greedy ([.*]). *)
Inductive atom : Type :=
| Chr (p : code_unit -> bool)
| Star (greedy : bool) (p : code_unit -> bool).

Definition regex := list atom.

(** A literal character, case-sensitive. *)
Definition lit (c : code_unit) : code_unit -> bool := fun x => x =? c.

(** A literal letter under the [i] flag; [c] is given in lower case. *)
Definition lit_ci (c : code_unit) : code_unit -> bool :=
  fun x => ascii_lower x =? c.

(** [.] without the [s] flag: anything but a line terminator. *)
Definition dot (x : code_unit) : bool :=
  negb ((x =? 10) || (x =? 13) || (x =? 8232) || (x =? 8233)).

Definition word (s : string) : regex := List.map (fun c => Chr (lit c)) (js s).
Definition word_ci (s : string) : regex := List.map (fun c => Chr (lit_ci c)) (js s).
Arguments word s%_string.
Arguments word_ci s%_string.

(** Backtracking match of [re] at the head of [s]; the result is the
    number of code units the match consumes.  A greedy star first takes as
    many characters as it can and gives them back one at a time, a lazy
    star first tries the rest of the pattern. *)
Fixpoint rmatch (re : regex) (s : jsstring) {struct re} : option nat :=
  match re with
  | [] => Some 0%nat
  | Chr p :: re' =>
      match s with
      | c :: s' => if p c then option_map S (rmatch re' s') else None
      | [] => None
      end
  | Star greedy p :: re' =>
      (fix star (s : jsstring) : option nat :=
         let stop := rmatch re' s in
         let more := match s with
                     | c :: s' => if p c then option_map S (star s') else None
                     | [] => None
                     end in
         if greedy
         then match more with Some n => Some n | None => stop end
         else match stop with Some n => Some n | None => more end) s
  end.

(** [s.replace(re, "")] with the [g] flag: every match, found from left
    to right, is removed; the search resumes after the match.  [skip] is
    the number of code units of the current match still to drop. *)
Fixpoint replace_from (re : regex) (skip : nat) (s : jsstring) : jsstring :=
  match s with
  | [] => []
  | c :: s' =>
      match skip with
      | S k => replace_from re k s'
      | O =>
          match rmatch re s with
          | Some (S n) => replace_from re n s'
          | _ => c :: replace_from re 0 s'
          end
      end
  end.

Definition replace_all (re : regex) (s : jsstring) : jsstring :=
  replace_from re 0 s.

(** [/\(feat\..*?\)/gi] *)
Definition re_feat : regex :=
  word "(" ++ word_ci "feat" ++ word "." ++ [Star false dot] ++ word ")".
(** [/\(with.*?\)/gi] *)
Definition re_with : regex :=
  word "(" ++ word_ci "with" ++ [Star false dot] ++ word ")".
(** [/\[.*?\]/g] *)
Definition re_bracket : regex :=
  word "[" ++ [Star false dot] ++ word "]".
(** [/-.*remaster.*/gi] *)
Definition re_dash_remaster : regex :=
  word "-" ++ [Star true dot] ++ word_ci "remaster" ++ [Star true dot].
(** [/remastered/gi] *)
Definition re_remastered : regex := word_ci "remastered".
(** [/-.*single/gi] *)
Definition re_dash_single : regex :=
  word "-" ++ [Star true dot] ++ word_ci "single".
(** [/\(.*?version\)/gi] *)
Definition re_version : regex :=
  word "(" ++ [Star false dot] ++ word_ci "version" ++ word ")".

End Regex.
Import Regex.

(* ================================================================== *)
(** ** The string normalizer *)
(* ================================================================== *)

(** The chain of replacements of [cleanString], before [trim]. *)
Definition strip_tags (str : jsstring) : jsstring :=
  replace_all re_version
    (replace_all re_dash_single
       (replace_all re_remastered
          (replace_all re_dash_remaster
             (replace_all re_bracket
                (replace_all re_with
                   (replace_all re_feat str)))))).

Definition cleanString (str : jsstring) : jsstring :=
  let clean := trim (strip_tags str) in
  let clean := if includes (js "&") clean
               then trim (split_first (js "&") clean) else clean in
  let clean := if includes (js ",") clean
               then trim (split_first (js ",") clean) else clean in
  clean.

(* ================================================================== *)
(** ** [encodeURIComponent] *)
(* ================================================================== *)

Module Uri.
Local Open Scope N_scope.

(** The characters [encodeURIComponent] leaves as they are: letters,
    digits and the marks [- _ . ! ~ * ' ( )]. *)
Definition unreserved (c : code_unit) : bool :=
  ((65 <=? c) && (c <=? 90)) || ((97 <=? c) && (c <=? 122))
  || ((48 <=? c) && (c <=? 57))
  || (c =? 45) || (c =? 95) || (c =? 46) || (c =? 33) || (c =? 126)
  || (c =? 42) || (c =? 39) || (c =? 40) || (c =? 41).

Definition is_lead (c : code_unit) : bool := (55296 <=? c) && (c <=? 56319).
Definition is_trail (c : code_unit) : bool := (56320 <=? c) && (c <=? 57343).

Definition hex_digit (n : N) : code_unit := if n <? 10 then 48 + n else 55 + n.

(** One octet as [%XX], in upper-case hexadecimal. *)
Definition percent (b : N) : jsstring := [37; hex_digit (b / 16); hex_digit (b mod 16)].

(** The UTF-8 octets of a code point. *)
Definition utf8 (cp : N) : list N :=
  if cp <? 128 then [cp]
  else if cp <? 2048 then [192 + cp / 64; 128 + cp mod 64]
  else if cp <? 65536 then
    [224 + cp / 4096; 128 + (cp / 64) mod 64; 128 + cp mod 64]
  else
    [240 + cp / 262144; 128 + (cp / 4096) mod 64;
     128 + (cp / 64) mod 64; 128 + cp mod 64].

Definition escape (cp : N) : jsstring := flat_map percent (utf8 cp).

(** [encodeURIComponent s]; [None] is the [URIError] the function throws
    when [s] holds a surrogate code unit that is not part of a pair. *)
Fixpoint encodeURIComponent (s : jsstring) : option jsstring :=
  match s with
  | [] => Some []
  | c :: rest =>
      if unreserved c then option_map (cons c) (encodeURIComponent rest)
      else if is_trail c then None
      else if is_lead c then
        match rest with
        | d :: rest' =>
            if is_trail d
            then option_map
                   (app (escape ((c - 55296) * 1024 + (d - 56320) + 65536)))
                   (encodeURIComponent rest')
            else None
        | [] => None
        end
      else option_map (app (escape c)) (encodeURIComponent rest)
  end.

End Uri.
Import Uri.

(* ================================================================== *)
(** ** Data model ([types.ts]) *)
(* ================================================================== *)

Record SongSuggestion : Type := {
  title : jsstring;
  artist : jsstring;
  moodDescription : jsstring
}.

(** [Track extends SongSuggestion]: the inherited fields are the record
    [song].  [previewUrl] is [string | null]; the resolver can also
    store [undefined] there and in [externalUrl] (a field the catalog
    left out), and [None] stands for both. *)
Record Track : Type := {
  song : SongSuggestion;
  id : Z;
  previewUrl : option jsstring;
  coverUrl : jsstring;
  externalUrl : option jsstring;
  isPlayable : bool
}.

(** The answer of the catalog search, at the types of its interface:
    [{ resultCount, results: [{ trackId, previewUrl, artworkUrl100,
    trackViewUrl, trackName, artistName }] }].  Every field may be
    missing ([None]: [undefined] or [null]). *)
Module Catalog.

Record item : Type := {
  trackId : option Z;
  previewUrl : option jsstring;
  artworkUrl100 : option jsstring;
  trackViewUrl : option jsstring;
  trackName : option jsstring;
  artistName : option jsstring
}.

Record search : Type := {
  resultCount : option Z;
  results : option (list item)
}.

(** What [fetchWithRetry] hands to its caller (its type is [any]):
    [null], [undefined], a search answer, or another JSON value (a
    number, a string, a boolean, an array), of which the resolver can
    only observe the truthiness. *)
Inductive data : Type :=
| DNull
| DUndefined
| DSearch (d : search)
| DOther (truthy : bool).

End Catalog.
Import Catalog(data, DNull, DUndefined, DSearch, DOther).

(** Truthiness of an optional string: present and not empty. *)
Definition truthy_str (o : option jsstring) : bool :=
  match o with
  | Some (_ :: _) => true
  | _ => false
  end.

(** [a || b] on an optional string and a string. *)
Definition or_str (o : option jsstring) (b : jsstring) : jsstring :=
  match o with
  | Some (c :: s) => c :: s
  | _ => b
  end.

(* ================================================================== *)
(** ** Effects: the trace monad of the asynchronous functions *)
(* ================================================================== *)

Inductive exn : Type :=
| URIError            (* encodeURIComponent on a lone surrogate *)
| NetworkError        (* fetch or response.text() rejects *)
| HttpError (status : Z)
| InvalidJson
| TypeError           (* a property read on undefined *)
| ConfigError.        (* getClient: no API key in the environment *)

(** The effects a catalog lookup performs, newest first in a trace:
    [EvQuery] marks one call of [fetchWithRetry], [EvFetch] one HTTP
    request, [EvSleep] one backoff delay. *)
Inductive event : Type :=
| EvQuery (url : jsstring)
| EvFetch (url : jsstring)
| EvSleep (ms : Z).

Definition trace := list event.

Inductive completion (A : Type) : Type :=
| Returns (a : A)
| Throws (e : exn).
Arguments Returns {A} a.
Arguments Throws {A} e.

Definition M (A : Type) : Type := trace -> completion A * trace.

Definition ret {A} (a : A) : M A := fun t => (Returns a, t).
Definition throw {A} (e : exn) : M A := fun t => (Throws e, t).
Definition bind {A B} (m : M A) (k : A -> M B) : M B :=
  fun t => match m t with
           | (Returns a, t') => k a t'
           | (Throws e, t') => (Throws e, t')
           end.
Definition try_catch {A} (m : M A) (handler : exn -> M A) : M A :=
  fun t => match m t with
           | (Returns a, t') => (Returns a, t')
           | (Throws e, t') => handler e t'
           end.
Definition emit (e : event) : M unit := fun t => (Returns tt, e :: t).

Declare Scope js_scope.
Delimit Scope js_scope with js_m.
Notation "x <- m ;; k" := (bind m (fun x => k))
  (at level 61, m at next level, right associativity) : js_scope.
Notation "m ;;; k" := (bind m (fun _ => k))
  (at level 61, right associativity) : js_scope.

(* ================================================================== *)
(** ** The resilient fetch and the track resolver ([musicService.ts]) *)
(* ================================================================== *)

(** What one HTTP request can come to: [fetch] rejects, or a response
    arrives with a status and a body ([None]: reading the body rejects). *)
Inductive http_reply : Type :=
| NetFailure
| Response (status : Z) (body : option jsstring).

Definition response_ok (status : Z) : bool :=
  ((200 <=? status) && (status <=? 299))%Z.

Definition rate_limited (r : http_reply) : bool :=
  match r with
  | Response status _ => ((status =? 403) || (status =? 429))%Z
  | NetFailure => false
  end.

(** [s.replace(pat, rep)] with a string pattern: the first occurrence. *)
Fixpoint replace_first (pat rep s : jsstring) : jsstring :=
  if startsWith pat s then rep ++ skipn (List.length pat) s
  else match s with
       | [] => []
       | c :: s' => c :: replace_first pat rep s'
       end.

Definition stock_cover : jsstring := js "https://picsum.photos/600/600?blur=2".

Definition search_url (query limit : jsstring) : jsstring :=
  js "https://itunes.apple.com/search?term=" ++ query
  ++ js "&media=music&entity=song&limit=" ++ limit ++ js "&country=US".

Definition fallbackTrack (suggestion : SongSuggestion) (index : Z) : Track :=
  {| song := suggestion;
     id := index;
     previewUrl := None;
     coverUrl := stock_cover;
     externalUrl := Some [];
     isPlayable := false |}.

(** [!data] *)
Definition falsy (d : data) : bool :=
  match d with
  | DNull | DUndefined => true
  | DOther b => negb b
  | DSearch _ => false
  end.

(** [data.resultCount === 0], read after [!data] was false. *)
Definition count_is_zero (d : data) : bool :=
  match d with
  | DSearch s => match Catalog.resultCount s with
                 | Some n => (n =? 0)%Z
                 | None => false
                 end
  | _ => false
  end.

(** [data && data.resultCount > 0] *)
Definition count_positive (d : data) : bool :=
  match d with
  | DSearch s => match Catalog.resultCount s with
                 | Some n => (0 <? n)%Z
                 | None => false
                 end
  | _ => false
  end.

(** The Track built from the catalog entry [track] (lines 116-130). *)
Definition resolvedTrack (suggestion : SongSuggestion) (index : Z)
    (track : Catalog.item) : Track :=
  let highResCover :=
    if truthy_str (Catalog.artworkUrl100 track)
    then option_map (replace_first (js "100x100bb") (js "600x600bb"))
                    (Catalog.artworkUrl100 track)
    else None in
  {| song := {| title := or_str (Catalog.trackName track) (title suggestion);
                artist := or_str (Catalog.artistName track) (artist suggestion);
                moodDescription := moodDescription suggestion |};
     id := match Catalog.trackId track with
           | Some n => if (n =? 0)%Z then index else n
           | None => index
           end;
     previewUrl := Catalog.previewUrl track;
     coverUrl := or_str highResCover stock_cover;
     externalUrl := Catalog.trackViewUrl track;
     isPlayable := truthy_str (Catalog.previewUrl track) |}.

Section Resolver.

(** The network: the reply to a request depends on the URL and on
    everything that happened before. *)
Variable net : trace -> jsstring -> http_reply.

(** [JSON.parse]; [None] when it throws. *)
Variable JSON_parse : jsstring -> option data.

(** [String.prototype.toLowerCase], the Unicode case conversion. *)
Variable toLowerCase : jsstring -> jsstring.

Local Open Scope js_scope.

Definition fetch (url : jsstring) : M http_reply :=
  fun t => (Returns (net t url), EvFetch url :: t).

Definition encode (s : jsstring) : M jsstring :=
  match encodeURIComponent s with
  | Some q => ret q
  | None => throw URIError
  end.

(** The body of the [try] block of one iteration (lines 27-52). *)
Definition attempt (url : jsstring) : M data :=
  reply <- fetch url ;;
  match reply with
  | NetFailure => throw NetworkError
  | Response status body =>
      if ((status =? 403) || (status =? 429))%Z then ret DNull
      else if negb (response_ok status) then throw (HttpError status)
      else match body with
           | None => throw NetworkError
           | Some text =>
               if str_eqb text [] || str_eqb (trim text) []
               then ret (DSearch {| Catalog.resultCount := Some 0%Z;
                                    Catalog.results := Some [] |})
               else match JSON_parse text with
                    | Some v => ret v
                    | None => throw InvalidJson
                    end
           end
  end.

(** The loop [for (let i = 0; i <= retries; i++)]: [fuel] is the number
    of iterations left.  The next iteration is reached only through the
    [catch] block, after the backoff delay. *)
Fixpoint retry_loop (url : jsstring) (retries delay : Z) (fuel : nat) (i : Z)
    : M data :=
  match fuel with
  | O => ret DUndefined
  | S fuel' =>
      try_catch (attempt url)
        (fun error =>
           if (i =? retries)%Z then throw error
           else emit (EvSleep (delay * (i + 1))) ;;;
                retry_loop url retries delay fuel' (i + 1)%Z)
  end.

Definition fetchWithRetry (url : jsstring) (retries delay : Z) : M data :=
  emit (EvQuery url) ;;;
  retry_loop url retries delay (Z.to_nat (retries + 1)) 0%Z.

(** The predicate of [data.results.find] (line 103). *)
Definition artist_matches (cleanArtist : jsstring) (r : Catalog.item) : bool :=
  match Catalog.artistName r with
  | Some (c :: name) =>
      negb (str_eqb cleanArtist [])
      && includes (toLowerCase cleanArtist) (toLowerCase (c :: name))
  | _ => false
  end.

(** The looser search (lines 91-112).  [inl] is a [return] of the
    enclosing function, [inr] the value of the variable [data] when the
    block is left.  When [fetchWithRetry] throws, [data] still holds the
    primary answer [data0]; when [data.results] is missing, [find] throws
    after [data] was assigned, and the inner [catch] swallows it. *)
Definition secondary_search (cleanTitle cleanArtist : jsstring)
    (fallback : Track) (data0 : data) : M (Track + data) :=
  query <- encode cleanTitle ;;
  let url := search_url query (js "5") in
  try_catch
    (data1 <- fetchWithRetry url 2 500 ;;
     match data1 with
     | DNull => ret (inl fallback)
     | DSearch d =>
         if count_positive data1 then
           match Catalog.results d with
           | None => ret (inr data1)
           | Some rs =>
               match find (artist_matches cleanArtist) rs with
               | Some m =>
                   ret (inr (DSearch {| Catalog.resultCount := Some 1%Z;
                                        Catalog.results := Some [m] |}))
               | None => ret (inr data1)
               end
           end
         else ret (inr data1)
     | _ => ret (inr data1)
     end)
    (fun innerError => ret (inr data0)).

(** Lines 115-135: build the Track from [data.results[0]]. *)
Definition use_first_result (suggestion : SongSuggestion) (index : Z)
    (fallback : Track) (d : data) : M Track :=
  if count_positive d then
    match d with
    | DSearch s =>
        match Catalog.results s with
        | Some (track :: _) => ret (resolvedTrack suggestion index track)
        | _ => throw TypeError
        end
    | _ => ret fallback
    end
  else ret fallback.

Definition fetchTrackDetails (suggestion : SongSuggestion) (index : Z)
    : M Track :=
  let cleanTitle := cleanString (title suggestion) in
  let cleanArtist := cleanString (artist suggestion) in
  let fallback := fallbackTrack suggestion index in
  query <- encode (cleanTitle ++ js " " ++ cleanArtist) ;;
  let url := search_url query (js "1") in
  try_catch
    (data0 <- fetchWithRetry url 2 500 ;;
     match data0 with
     | DNull => ret fallback
     | _ =>
         r <- (if falsy data0 || count_is_zero data0
               then secondary_search cleanTitle cleanArtist fallback data0
               else ret (inr data0)) ;;
         match r with
         | inl t => ret t
         | inr d => use_first_result suggestion index fallback d
         end
     end)
    (fun error => ret fallback).

(** The URL of the primary query of a suggestion, when it can be built. *)
Definition primary_url (suggestion : SongSuggestion) : option jsstring :=
  option_map (fun q => search_url q (js "1"))
    (encodeURIComponent (cleanString (title suggestion) ++ js " "
                         ++ cleanString (artist suggestion))).

Definition secondary_url (suggestion : SongSuggestion) : option jsstring :=
  option_map (fun q => search_url q (js "5"))
    (encodeURIComponent (cleanString (title suggestion))).

End Resolver.

(* ================================================================== *)
(** ** The AI service ([geminiService.ts]) *)
(* ================================================================== *)

(** [a.slice(start, end)] *)
Definition js_slice {A} (start end_ : Z) (l : list A) : list A :=
  let len := Z.of_nat (List.length l) in
  let k := if (start <? 0)%Z then Z.max (len + start) 0 else Z.min start len in
  let final := if (end_ <? 0)%Z then Z.max (len + end_) 0 else Z.min end_ len in
  firstn (Z.to_nat (final - k)) (skipn (Z.to_nat k) l).

(** [a.join(sep)] *)
Fixpoint join (sep : jsstring) (l : list jsstring) : jsstring :=
  match l with
  | [] => []
  | x :: rest =>
      match rest with
      | [] => x
      | _ :: _ => x ++ sep ++ join sep rest
      end
  end.

(** The values interpolated into the prompt of a follow-up call. *)
Inductive ai_request : Type :=
| RefineRequest (currentMood likedTitle likedArtist excludeList : jsstring)
| PivotRequest (currentMood skippedList excludeList : jsstring).

(** How a follow-up call can go: [getClient] throws (no API key),
    [generateContent] rejects, or a response arrives whose [text] may be
    missing. *)
Inductive sdk_reply : Type :=
| NoApiKey
| SdkRejects
| SdkText (text : option jsstring).

Section AiService.

(** [JSON.parse(response.text) as SongSuggestion[]]; [None] when it throws. *)
Variable parse_songs : jsstring -> option (list SongSuggestion).

Definition excludeList (existingTitles : list jsstring) : jsstring :=
  join (js ", ")
       (js_slice (-50) (Z.of_nat (List.length existingTitles)) existingTitles).

Definition refine_request (currentMood : jsstring) (likedSong : SongSuggestion)
    (existingTitles : list jsstring) : ai_request :=
  RefineRequest currentMood (title likedSong) (artist likedSong)
                (excludeList existingTitles).

Definition pivot_request (currentMood : jsstring) (skippedSongs : list jsstring)
    (existingTitles : list jsstring) : ai_request :=
  PivotRequest currentMood (join (js ", ") skippedSongs)
               (excludeList existingTitles).

(** [getRefinedSongs], from the reply of the SDK on.  [getClient] is
    called outside the [try] block, so its error reaches the caller; the
    [catch] block turns every other failure into the empty list. *)
Definition getRefinedSongs (reply : sdk_reply)
    : completion (list SongSuggestion) :=
  match reply with
  | NoApiKey => Throws ConfigError
  | SdkRejects => Returns []
  | SdkText None => Returns []
  | SdkText (Some []) => Returns []
  | SdkText (Some text) =>
      match parse_songs text with
      | Some songs => Returns songs
      | None => Returns []
      end
  end.

(** [getPivotSongs] handles the reply in the same way. *)
Definition getPivotSongs (reply : sdk_reply)
    : completion (list SongSuggestion) :=
  match reply with
  | NoApiKey => Throws ConfigError
  | SdkRejects => Returns []
  | SdkText None => Returns []
  | SdkText (Some []) => Returns []
  | SdkText (Some text) =>
      match parse_songs text with
      | Some songs => Returns songs
      | None => Returns []
      end
  end.


End AiService.

(* ================================================================== *)
(** ** The playlist handlers ([App.tsx]) *)
(* ================================================================== *)

Module App.

(** The React state the handlers read and write.  A handler reads the
    values of the render it was created in (its snapshot) and writes
    through the setters. *)
Record state : Type := {
  playlist : list Track;
  currentIndex : Z;
  moodSummary : jsstring;
  notification : option jsstring;
  consecutiveSkips : Z
}.

(** What a handler sets in motion, newest first. *)
Inductive effect : Type :=
| AiCall (req : ai_request)
| Toast (msg : jsstring)
| Backfill (suggestions : list SongSuggestion) (startIndex currentLength : Z).

(** The shared mutable world: the React state, the lock
    [isGeneratingRef.current] and the effects started so far. *)
Record world : Type := {
  ui : state;
  isGenerating : bool;
  effects : list effect
}.

Definition setPlaylist (f : list Track -> list Track) (w : world) : world :=
  {| ui := {| playlist := f (playlist (ui w));
              currentIndex := currentIndex (ui w);
              moodSummary := moodSummary (ui w);
              notification := notification (ui w);
              consecutiveSkips := consecutiveSkips (ui w) |};
     isGenerating := isGenerating w;
     effects := effects w |}.

Definition setCurrentIndex (f : Z -> Z) (w : world) : world :=
  {| ui := {| playlist := playlist (ui w);
              currentIndex := f (currentIndex (ui w));
              moodSummary := moodSummary (ui w);
              notification := notification (ui w);
              consecutiveSkips := consecutiveSkips (ui w) |};
     isGenerating := isGenerating w;
     effects := effects w |}.

Definition setConsecutiveSkips (n : Z) (w : world) : world :=
  {| ui := {| playlist := playlist (ui w);
              currentIndex := currentIndex (ui w);
              moodSummary := moodSummary (ui w);
              notification := notification (ui w);
              consecutiveSkips := n |};
     isGenerating := isGenerating w;
     effects := effects w |}.

Definition setNotification (o : option jsstring) (w : world) : world :=
  {| ui := {| playlist := playlist (ui w);
              currentIndex := currentIndex (ui w);
              moodSummary := moodSummary (ui w);
              notification := o;
              consecutiveSkips := consecutiveSkips (ui w) |};
     isGenerating := isGenerating w;
     effects := effects w |}.

Definition setGenerating (b : bool) (w : world) : world :=
  {| ui := ui w; isGenerating := b; effects := effects w |}.

Definition start (e : effect) (w : world) : world :=
  {| ui := ui w; isGenerating := isGenerating w; effects := e :: effects w |}.

(** [showNotification]: the message is set, and a timer that clears it
    three seconds later is started. *)
Definition showNotification (msg : jsstring) (w : world) : world :=
  start (Toast msg) (setNotification (Some msg) w).

(** [a[i]] for a number [i] that is an integer. *)
Definition at_index {A} (l : list A) (i : Z) : option A :=
  if (i <? 0)%Z then None else nth_error l (Z.to_nat i).

(** The decimal digits of a length, as a template literal prints it. *)
Definition decimal (n : nat) : jsstring :=
  List.map N_of_ascii
    (list_ascii_of_string (DecimalString.NilZero.string_of_uint (Nat.to_uint n))).

Definition placeholder_cover : jsstring := js "https://picsum.photos/600/600?blur=5".

(** A handler runs to its end, throws, or is suspended at the call of
    the AI service; [resume] is the rest of the handler, run on the world
    of the moment the reply arrives, with the reading of the clock. *)
Inductive outcome : Type :=
| Completed (w : world)
| Crashed (w : world)
| Awaiting (w : world) (call : ai_request)
           (resume : sdk_reply -> Z -> world -> world).

Section Handlers.

Variable toLowerCase : jsstring -> jsstring.
Variable parse_songs : jsstring -> option (list SongSuggestion).

(** The predicate of [playlist.some] in [addSongsToPlaylist]. *)
Definition same_song (suggestion : SongSuggestion) (existingTrack : Track) : bool :=
  str_eqb (trim (toLowerCase (title (song existingTrack))))
          (trim (toLowerCase (title suggestion)))
  || (includes (toLowerCase (title suggestion))
               (toLowerCase (title (song existingTrack)))
      && includes (toLowerCase (artist suggestion))
                  (toLowerCase (artist (song existingTrack)))).

Definition isDuplicate (playlist : list Track) (suggestion : SongSuggestion) : bool :=
  existsb (same_song suggestion) playlist.

Definition uniqueSuggestions (playlist : list Track)
    (newSongs : list SongSuggestion) : list SongSuggestion :=
  filter (fun suggestion => negb (isDuplicate playlist suggestion)) newSongs.

(** The placeholders of [uniqueSuggestions.map((song, idx) => ...)],
    from index [idx] on. *)
Fixpoint placeholders (currentLength now : Z) (idx : nat)
    (songs : list SongSuggestion) : list Track :=
  match songs with
  | [] => []
  | s :: rest =>
      {| song := s;
         id := currentLength + Z.of_nat idx + now;
         previewUrl := None;
         coverUrl := placeholder_cover;
         externalUrl := Some [];
         isPlayable := false |}
      :: placeholders currentLength now (S idx) rest
  end.

(** [addSongsToPlaylist], closed over the [playlist] of its render;
    [now] is the value of [Date.now()]. *)
Definition addSongsToPlaylist (snapshot : list Track) (now : Z)
    (newSongs : list SongSuggestion) (w : world) : world :=
  let unique := uniqueSuggestions snapshot newSongs in
  if (0 <? List.length unique)%nat then
    let currentLength := Z.of_nat (List.length snapshot) in
    let newPlaceholders := placeholders currentLength now 0 unique in
    let w := setPlaylist (fun prev => prev ++ newPlaceholders) w in
    let w := showNotification
               (js "Agregadas " ++ decimal (List.length unique)
                ++ js " nuevas sugerencias.") w in
    start (Backfill unique 0 currentLength) w
  else w.

(** [handlePivot], called by [handleNext], which goes on with [next]
    once the pivot is over.  The argument [lastSkippedTitle] is not used
    by the body. *)
Definition handlePivot (snap : state) (lastSkippedTitle : jsstring)
    (next : world -> world) (w : world) : outcome :=
  if isGenerating w then Completed (next w)
  else
    let w := setGenerating true w in
    let w := showNotification (js "Probando otra vibra...") w in
    let existingTitles := List.map (fun t => title (song t)) (playlist snap) in
    let skippedContext :=
      List.map (fun t => title (song t))
        (js_slice (Z.max 0 (currentIndex snap - 2)) (currentIndex snap + 1)
                  (playlist snap)) in
    let req := pivot_request (moodSummary snap) skippedContext existingTitles in
    Awaiting (start (AiCall req) w) req
      (fun reply now w' =>
         let w' := match getPivotSongs parse_songs reply with
                   | Returns pivotSongs =>
                       addSongsToPlaylist (playlist snap) now pivotSongs w'
                   | Throws _ => w'
                   end in
         next (setGenerating false w')).

Definition handleNext (snap : state) (duration : Q) (w : world) : outcome :=
  match at_index (playlist snap) (currentIndex snap) with
  | None => Crashed w
  | Some currentTrack =>
      let advance :=
        setCurrentIndex
          (fun prev => Z.rem (prev + 1) (Z.of_nat (List.length (playlist snap)))) in
      if isPlayable currentTrack then
        if negb (Qle_bool 8 duration) then
          let newSkips := (consecutiveSkips snap + 1)%Z in
          let w := setConsecutiveSkips newSkips w in
          if (3 <=? newSkips)%Z && negb (isGenerating w) then
            let w := setConsecutiveSkips 0 w in
            handlePivot snap (title (song currentTrack)) advance w
          else Completed (advance w)
        else Completed (advance (setConsecutiveSkips 0 w))
      else Completed (advance w)
  end.

Definition handleLike (snap : state) (track : Track) (w : world) : outcome :=
  if isGenerating w then Completed w
  else
    let w := setGenerating true w in
    let w := showNotification (js "Sintonizando algoritmo con tu vibra...") w in
    let w := setConsecutiveSkips 0 w in
    let existingTitles := List.map (fun t => title (song t)) (playlist snap) in
    let req := refine_request (moodSummary snap) (song track) existingTitles in
    Awaiting (start (AiCall req) w) req
      (fun reply now w' =>
         let w' := match getRefinedSongs parse_songs reply with
                   | Returns newSuggestions =>
                       addSongsToPlaylist (playlist snap) now newSuggestions w'
                   | Throws _ => w'
                   end in
         setGenerating false w').

(** The events of the player: the handlers are those of the last render,
    so their snapshot is the current React state. *)
Inductive event : Type :=
| TrackAdvanced (listenedDuration : Q)
| TrackLiked (track : Track).

Definition dispatch (e : event) (w : world) : outcome :=
  match e with
  | TrackAdvanced duration => handleNext (ui w) duration w
  | TrackLiked track => handleLike (ui w) track w
  end.

(** The running system: the world and the expansion flows suspended at
    their AI call. *)
Record config : Type := {
  now_world : world;
  inflight : list (sdk_reply -> Z -> world -> world)
}.

Inductive step : config -> config -> Prop :=
| step_done : forall c e w',
    dispatch e (now_world c) = Completed w' ->
    step c {| now_world := w'; inflight := inflight c |}
| step_crash : forall c e w',
    dispatch e (now_world c) = Crashed w' ->
    step c {| now_world := w'; inflight := inflight c |}
| step_call : forall c e w' req resume,
    dispatch e (now_world c) = Awaiting w' req resume ->
    step c {| now_world := w'; inflight := resume :: inflight c |}
| step_reply : forall c before resume after reply now,
    inflight c = before ++ resume :: after ->
    step c {| now_world := resume reply now (now_world c);
              inflight := before ++ after |}.

Inductive reachable (c0 : config) : config -> Prop :=
| reach_refl : reachable c0 c0
| reach_step : forall c c', reachable c0 c -> step c c' -> reachable c0 c'.

Definition ai_calls (w : world) : list ai_request :=
  flat_map (fun e => match e with AiCall r => [r] | _ => [] end) (effects w).

End Handlers.

End App.

(* ================================================================== *)
(** ** Notions used by the statements *)
(* ================================================================== *)

(** The characters that open a removable tag: [(], [[] and [-]. *)
Definition tag_opener (c : code_unit) : bool :=
  ((c =? 40) || (c =? 91) || (c =? 45))%N.

(** No tag is left in [s]: no opener, and no [remastered] in any case. *)
Definition tag_free (s : jsstring) : bool :=
  negb (existsb tag_opener s)
  && negb (includes (js "remastered") (List.map ascii_lower s)).

(** The pattern [re] matches at no position of [s]. *)
Definition no_match (re : regex) (s : jsstring) : Prop :=
  forall pre suf, s = pre ++ suf -> rmatch re suf = None.

(** The calls of [fetchWithRetry] recorded in a trace. *)
Definition queries (t : trace) : list jsstring :=
  flat_map (fun e => match e with EvQuery u => [u] | _ => [] end) t.

Section SecondaryRule.

Variable toLowerCase : jsstring -> jsstring.

(** The candidate the resolver keeps from the answer of the looser
    search: the first one whose artist name contains the cleaned artist,
    and the first candidate of the answer when there is none. *)
Definition preferred_candidate (cleanArtist : jsstring)
    (rs : list Catalog.item) : option Catalog.item :=
  match find (artist_matches toLowerCase cleanArtist) rs with
  | Some m => Some m
  | None => hd_error rs
  end.

(** The Track the resolver returns after the looser search completed
    with [answer]. *)
Definition track_from_secondary (suggestion : SongSuggestion) (index : Z)
    (answer : completion data) : Track :=
  match answer with
  | Returns (DSearch d) =>
      match Catalog.resultCount d, Catalog.results d with
      | Some n, Some rs =>
          if (0 <? n)%Z then
            match preferred_candidate (cleanString (artist suggestion)) rs with
            | Some c => resolvedTrack suggestion index c
            | None => fallbackTrack suggestion index
            end
          else fallbackTrack suggestion index
      | _, _ => fallbackTrack suggestion index
      end
  | _ => fallbackTrack suggestion index
  end.

End SecondaryRule.

(** The case conversion of strings of ASCII characters, for the examples. *)
Definition ascii_toLowerCase (s : jsstring) : jsstring := List.map ascii_lower s.

(** A catalog whose exact query finds nothing and whose title-only query
    finds one recording, by another artist. *)
Module HelloExample.

Definition suggestion : SongSuggestion :=
  {| title := js "Hello"; artist := js "Adele"; moodDescription := js "calma" |}.

Definition lionel : Catalog.item :=
  {| Catalog.trackId := Some 1440000001%Z;
     Catalog.previewUrl := Some (js "https://audio.example/hello.m4a");
     Catalog.artworkUrl100 := Some (js "https://img.example/100x100bb.jpg");
     Catalog.trackViewUrl := Some (js "https://music.example/hello");
     Catalog.trackName := Some (js "Hello");
     Catalog.artistName := Some (js "Lionel Richie") |}.

(** The text of a JSON string and of a member with a string value. *)
Definition quoted (s : jsstring) : jsstring := [34%N] ++ s ++ [34%N].
Definition member (name value : jsstring) : jsstring :=
  quoted name ++ js ":" ++ value.

(** The body of an answer without results: a count of 0 and an empty
    array. *)
Definition body_none : jsstring :=
  js "{" ++ member (js "resultCount") (js "0") ++ js ","
  ++ member (js "results") (js "[]") ++ js "}".

(** The body with the one recording [lionel]. *)
Definition body_lionel : jsstring :=
  js "{" ++ member (js "resultCount") (js "1") ++ js ","
  ++ member (js "results")
       (js "[{" ++ member (js "trackId") (js "1440000001") ++ js ","
        ++ member (js "previewUrl") (quoted (js "https://audio.example/hello.m4a"))
        ++ js ","
        ++ member (js "artworkUrl100")
             (quoted (js "https://img.example/100x100bb.jpg")) ++ js ","
        ++ member (js "trackViewUrl") (quoted (js "https://music.example/hello"))
        ++ js ","
        ++ member (js "trackName") (quoted (js "Hello")) ++ js ","
        ++ member (js "artistName") (quoted (js "Lionel Richie")) ++ js "}]")
  ++ js "}".

(** Every request is answered with status 200: the title-only query
    (the one with [limit=5]) with [body_lionel], the exact one with
    [body_none]. *)
Definition net (t : trace) (url : jsstring) : http_reply :=
  if includes (js "limit=5") url then Response 200 (Some body_lionel)
  else Response 200 (Some body_none).

(** [JSON.parse] on these two bodies. *)
Definition JSON_parse (text : jsstring) : option data :=
  if str_eqb text body_lionel
  then Some (DSearch {| Catalog.resultCount := Some 1%Z;
                        Catalog.results := Some [lionel] |})
  else if str_eqb text body_none
  then Some (DSearch {| Catalog.resultCount := Some 0%Z;
                        Catalog.results := Some [] |})
  else None.

(** A network on which every request is refused with status 429. *)
Definition refusing (t : trace) (url : jsstring) : http_reply :=
  Response 429 None.

(** A network that fails once and then refuses with status 403. *)
Definition flaky (t : trace) (url : jsstring) : http_reply :=
  match t with
  | [EvQuery _] => NetFailure
  | _ => Response 403 None
  end.

End HelloExample.

(* ================================================================== *)
(** ** Notions used by the statements about the playlist *)
(* ================================================================== *)



Section DedupRule.

Variable toLowerCase : jsstring -> jsstring.



End DedupRule.



(** The cursor points at a track and every track can be played. *)
Definition all_playable (w : App.world) : Prop :=
  (0 <= App.currentIndex (App.ui w)
   < Z.of_nat (List.length (App.playlist (App.ui w))))%Z
  /\ Forall (fun t => isPlayable t = true) (App.playlist (App.ui w)).

(** The cursor move at the end of [handleNext]. *)
Definition advance (snap : App.state) : App.world -> App.world :=
  App.setCurrentIndex
    (fun prev => Z.rem (prev + 1) (Z.of_nat (List.length (App.playlist snap)))).

(** A session with two resolved tracks, two fast skips behind it. *)
Module Session.

Definition track (name who : jsstring) (n : Z) : Track :=
  {| song := {| title := name; artist := who; moodDescription := js "calma" |};
     id := n;
     previewUrl := Some (js "https://audio.example/preview.m4a");
     coverUrl := js "https://img.example/600x600bb.jpg";
     externalUrl := Some (js "https://music.example/track");
     isPlayable := true |}.

Definition blinding : Track := track (js "Blinding Lights") (js "The Weeknd") 1.
Definition levitating : Track := track (js "Levitating") (js "Dua Lipa") 2.

Definition world0 : App.world :=
  {| App.ui := {| App.playlist := [blinding; levitating];
                  App.currentIndex := 0;
                  App.moodSummary := js "calma";
                  App.notification := None;
                  App.consecutiveSkips := 2 |};
     App.isGenerating := false;
     App.effects := [] |}.

Definition config0 : App.config :=
  {| App.now_world := world0; App.inflight := [] |}.

Definition parse_songs (text : jsstring) : option (list SongSuggestion) :=
  if str_eqb text (js "[]") then Some [] else None.

Definition suggest (name who : jsstring) : SongSuggestion :=
  {| title := name; artist := who; moodDescription := js "calma" |}.

(** The like of the first track, up to its suspension. *)
Definition liked : App.outcome :=
  App.dispatch ascii_toLowerCase parse_songs (App.TrackLiked blinding) world0.

Definition world1 : App.world :=
  match liked with
  | App.Awaiting w _ _ => w
  | App.Completed w | App.Crashed w => w
  end.

Definition request1 : ai_request :=
  match liked with
  | App.Awaiting _ req _ => req
  | _ => RefineRequest [] [] [] []
  end.

Definition resume1 : sdk_reply -> Z -> App.world -> App.world :=
  match liked with
  | App.Awaiting _ _ resume => resume
  | _ => fun _ _ w => w
  end.

Definition config1 : App.config :=
  {| App.now_world := world1; App.inflight := [resume1] |}.

End Session.

(* ================================================================== *)
(** ** The rest of the pipeline: navigation, backfill, upload, reset *)
(* ================================================================== *)

(** [subseq l l']: [l] is [l'] with some of its elements left out. *)
Inductive subseq {A : Type} : list A -> list A -> Prop :=
| subseq_nil : subseq [] []
| subseq_skip : forall x l l', subseq l l' -> subseq l (x :: l')
| subseq_keep : forall x l l', subseq l l' -> subseq (x :: l) (x :: l').

(** Well-formed UTF-16: every surrogate code unit is half of a pair. *)
Inductive well_formed : jsstring -> Prop :=
| wf_nil : well_formed []
| wf_unit : forall c s,
    is_lead c = false -> is_trail c = false ->
    well_formed s -> well_formed (c :: s)
| wf_pair : forall c d s,
    is_lead c = true -> is_trail d = true ->
    well_formed s -> well_formed (c :: d :: s).

(** The HTTP requests and the delays recorded in a trace. *)
Definition requests (t : trace) : list jsstring :=
  flat_map (fun e => match e with EvFetch u => [u] | _ => [] end) t.

Definition delays (t : trace) : list Z :=
  flat_map (fun e => match e with EvSleep ms => [ms] | _ => [] end) t.

(** A reply that [fetchWithRetry] retries: no response, or a status
    that is neither a success nor 403 or 429. *)
Definition transient (r : http_reply) : bool :=
  match r with
  | NetFailure => true
  | Response status _ =>
      negb ((status =? 403) || (status =? 429))%Z && negb (response_ok status)
  end.

(** The delays [delay * 1], ..., [delay * n], the last one first. *)
Definition backoff (delay : Z) (n : nat) : list Z :=
  List.map (fun j => (delay * Z.of_nat j)%Z) (rev (seq 1 n)).

(** [handlePrev]: the cursor moves back, modulo the length of the
    playlist of the render.  With an empty playlist the new cursor is
    [NaN], which the integers do not hold: [None]. *)
Definition handlePrev (snap : App.state) (w : App.world) : option App.world :=
  match App.playlist snap with
  | [] => None
  | _ :: _ =>
      Some (App.setCurrentIndex
              (fun prev => Z.rem (prev - 1 + Z.of_nat (List.length (App.playlist snap)))
                                 (Z.of_nat (List.length (App.playlist snap))))
              w)
  end.

(** The cursor points at a track. *)
Definition cursor_in_range (w : App.world) : Prop :=
  (0 <= App.currentIndex (App.ui w)
   < Z.of_nat (List.length (App.playlist (App.ui w))))%Z.

(** What a suspended flow does when it is resumed on a playlist of at
    least [floor] tracks: it appends, and keeps the cursor in range. *)
Definition appends_in_range (floor : nat)
    (resume : sdk_reply -> Z -> App.world -> App.world) : Prop :=
  forall reply now w,
    (floor <= List.length (App.playlist (App.ui w)))%nat ->
    (exists added,
        App.playlist (App.ui (resume reply now w))
        = App.playlist (App.ui w) ++ added)
    /\ (cursor_in_range w -> cursor_in_range (resume reply now w)).

(** The invariant of the running system: the cursor is in range, the
    playlist extends that of the start, and every flow in flight
    appends and keeps the cursor in range. *)
Definition playlist_grows (c0 c : App.config) : Prop :=
  cursor_in_range (App.now_world c)
  /\ (exists added,
         App.playlist (App.ui (App.now_world c))
         = App.playlist (App.ui (App.now_world c0)) ++ added)
  /\ Forall (fun resume =>
               exists floor,
                 (floor <= List.length (App.playlist (App.ui (App.now_world c))))%nat
                 /\ appends_in_range floor resume)
            (App.inflight c).

(** [a[n] = x] on an index the array has. *)
Fixpoint set_nth {A : Type} (n : nat) (x : A) (l : list A) : list A :=
  match l, n with
  | [], _ => []
  | _ :: l', O => x :: l'
  | y :: l', S k => y :: set_nth k x l'
  end.

(** The updater of [setPlaylist] in [fetchRemainingTracks]: the entry at
    [actualIndex] is overwritten if there still is one. *)
Definition backfill_write (actualIndex : Z) (track : Track)
    (prev : list Track) : list Track :=
  match App.at_index prev actualIndex with
  | Some _ => set_nth (Z.to_nat actualIndex) track prev
  | None => prev
  end.

(** [startIndex === 1 ? i : (currentLength + i)] *)
Definition actualIndex (startIndex currentLength i : Z) : Z :=
  if (startIndex =? 1)%Z then i else (currentLength + i)%Z.

Definition setMoodSummary (m : jsstring) (w : App.world) : App.world :=
  {| App.ui := {| App.playlist := App.playlist (App.ui w);
                  App.currentIndex := App.currentIndex (App.ui w);
                  App.moodSummary := m;
                  App.notification := App.notification (App.ui w);
                  App.consecutiveSkips := App.consecutiveSkips (App.ui w) |};
     App.isGenerating := App.isGenerating w;
     App.effects := App.effects w |}.

Section Backfill.

Variable net : trace -> jsstring -> http_reply.
Variable JSON_parse : jsstring -> option data.
Variable toLowerCase : jsstring -> jsstring.

(** The iterations of [fetchRemainingTracks] from index [i] on, [rest]
    being the suggestions left, run without any other handler in
    between: the delay of 1.2 s, the resolution, the write.  When the
    resolver throws, the pass stops there. *)
Fixpoint backfill_loop (startIndex currentLength : Z)
    (rest : list SongSuggestion) (i : Z) (t : trace) (w : App.world)
    : completion unit * trace * App.world :=
  match rest with
  | [] => (Returns tt, t, w)
  | suggestion :: rest' =>
      let index := actualIndex startIndex currentLength i in
      match fetchTrackDetails net JSON_parse toLowerCase suggestion index
              (EvSleep 1200 :: t) with
      | (Returns track, t') =>
          backfill_loop startIndex currentLength rest' (i + 1)%Z t'
            (App.setPlaylist (backfill_write index track) w)
      | (Throws e, t') => (Throws e, t', w)
      end
  end.

(** [fetchRemainingTracks(suggestions, startIndex, currentLength)], for
    the start indices of its two call sites, 0 and 1. *)
Definition fetchRemainingTracks (suggestions : list SongSuggestion)
    (startIndex currentLength : Z) (t : trace) (w : App.world)
    : completion unit * trace * App.world :=
  backfill_loop startIndex currentLength
    (skipn (Z.to_nat startIndex) suggestions) startIndex t w.

End Backfill.

Section Skipping.

Variable toLowerCase : jsstring -> jsstring.
Variable parse_songs : jsstring -> option (list SongSuggestion).

(** A run of track advances, each handled by the render that follows
    the one before; [None] when one of them does not run to its end. *)
Fixpoint advance_all (durations : list Q) (w : App.world) : option App.world :=
  match durations with
  | [] => Some w
  | d :: rest =>
      match App.dispatch toLowerCase parse_songs (App.TrackAdvanced d) w with
      | App.Completed w' => advance_all rest w'
      | _ => None
      end
  end.

End Skipping.

(** The first index a backfill pass may write. *)
Definition backfill_base (startIndex currentLength : Z) : Z :=
  if (startIndex =? 1)%Z then 0%Z else currentLength.

(* ------------------------------------------------------------------ *)
(** *** Upload and reset *)

(** [GeminiResponse] of [types.ts]. *)
Record GeminiResponse : Type := {
  songs : list SongSuggestion;
  overallMood : jsstring
}.

(** [s.split(sep)[1]] for a separator of one code unit: the text
    between its first and its second occurrence, [undefined] ([None])
    when [s] does not hold it. *)
Fixpoint split_second (sep : code_unit) (s : jsstring) : option jsstring :=
  match s with
  | [] => None
  | c :: s' => if (c =? sep)%N then Some (split_first [sep] s')
               else split_second sep s'
  end.

Section Analysis.

(** [JSON.parse(response.text) as GeminiResponse]; [None] when it throws. *)
Variable parse_response : jsstring -> option GeminiResponse.

(** [analyzeImageAndGetSongs], from the reply of the SDK on: unlike the
    follow-up calls it throws on every failure ([None]); its [catch]
    block logs the error and throws it again. *)
Definition analyzeImageAndGetSongs (reply : sdk_reply) : option GeminiResponse :=
  match reply with
  | SdkText (Some (c :: text)) => parse_response (c :: text)
  | _ => None
  end.

End Analysis.

(** The component state: the world of the playlist handlers and the
    state of the upload screen; [alerts] are the calls of [alert]. *)
Record session : Type := {
  world : App.world;
  isLoading : bool;
  hasUploaded : bool;
  uploadedImage : option jsstring;
  alerts : list jsstring
}.

Definition on_world (f : App.world -> App.world) (s : session) : session :=
  {| world := f (world s); isLoading := isLoading s;
     hasUploaded := hasUploaded s; uploadedImage := uploadedImage s;
     alerts := alerts s |}.

Definition setIsLoading (b : bool) (s : session) : session :=
  {| world := world s; isLoading := b; hasUploaded := hasUploaded s;
     uploadedImage := uploadedImage s; alerts := alerts s |}.

Definition setHasUploaded (b : bool) (s : session) : session :=
  {| world := world s; isLoading := isLoading s; hasUploaded := b;
     uploadedImage := uploadedImage s; alerts := alerts s |}.

Definition setUploadedImage (o : option jsstring) (s : session) : session :=
  {| world := world s; isLoading := isLoading s; hasUploaded := hasUploaded s;
     uploadedImage := o; alerts := alerts s |}.

Definition alert (msg : jsstring) (s : session) : session :=
  {| world := world s; isLoading := isLoading s; hasUploaded := hasUploaded s;
     uploadedImage := uploadedImage s; alerts := msg :: alerts s |}.

(** [resetApp].  The cursor is not reset. *)
Definition resetApp (s : session) : session :=
  let s := setHasUploaded false s in
  let s := on_world (App.setPlaylist (fun _ => [])) s in
  let s := on_world (setMoodSummary []) s in
  let s := setUploadedImage None s in
  let s := on_world (App.setNotification None) s in
  let s := on_world (App.setConsecutiveSkips 0) s in
  on_world (App.setGenerating false) s.

(** The placeholders of [aiResponse.songs.map((song, idx) => ...)] in
    [handleImageUpload], from index [idx] on; index 0 is the first
    track. *)
Fixpoint initialPlaylist (firstTrack : Track) (idx : nat)
    (songs : list SongSuggestion) : list Track :=
  match songs with
  | [] => []
  | s :: rest =>
      (match idx with
       | O => firstTrack
       | S _ =>
           {| song := s;
              id := Z.of_nat idx;
              previewUrl := None;
              coverUrl := App.placeholder_cover;
              externalUrl := Some [];
              isPlayable := false |}
       end)
      :: initialPlaylist firstTrack (S idx) rest
  end.

(** The message of the alert of [handleImageUpload]. *)
Definition upload_alert : jsstring :=
  js "Ups! No pudimos conectar con la musa. Intenta con otra foto.".

(** [handleImageUpload] runs to its end or is suspended at one of its
    two calls: the analysis of the image, then the resolution of the
    first song.  With an empty list of songs, [songs[0]] is [undefined]
    and the resolver throws on reading its title: the handler goes to
    its [catch] block without any request. *)
Inductive upload_step : Type :=
| UploadDone (s : session)
| AwaitAnalysis (s : session) (payload : option jsstring)
                (resume : sdk_reply -> session -> upload_step)
| AwaitTrack (s : session) (suggestion : SongSuggestion) (index : Z)
             (resume : completion Track -> session -> session).

Section UploadFlow.

Variable parse_response : jsstring -> option GeminiResponse.

(** The [catch] block of [handleImageUpload]. *)
Definition upload_failed (s : session) : session :=
  let s := setIsLoading false s in
  let s := on_world (App.setGenerating false) s in
  let s := alert upload_alert s in
  setHasUploaded false s.

(** Lines 67-87, once the first track is there. *)
Definition upload_seeded (aiResponse : GeminiResponse) (firstTrack : Track)
    (s : session) : session :=
  let initial := initialPlaylist firstTrack 0 (songs aiResponse) in
  let s := on_world (App.setPlaylist (fun _ => initial)) s in
  let s := on_world (App.setCurrentIndex (fun _ => 0%Z)) s in
  let s := setIsLoading false s in
  let s := on_world (App.setGenerating false) s in
  on_world (App.start (App.Backfill (songs aiResponse) 1
                         (Z.of_nat (List.length initial)))) s.

Definition handleImageUpload (base64 : jsstring) (s : session) : upload_step :=
  if App.isGenerating (world s) then UploadDone s
  else
    let s := setIsLoading true s in
    let s := setHasUploaded true s in
    let s := setUploadedImage (Some base64) s in
    let s := on_world (App.setPlaylist (fun _ => [])) s in
    let s := on_world (setMoodSummary []) s in
    let s := on_world (App.setConsecutiveSkips 0) s in
    let s := on_world (App.setGenerating true) s in
    AwaitAnalysis s (split_second 44%N base64)
      (fun reply s' =>
         match analyzeImageAndGetSongs parse_response reply with
         | None => UploadDone (upload_failed s')
         | Some aiResponse =>
             let s' := on_world (setMoodSummary (overallMood aiResponse)) s' in
             match songs aiResponse with
             | [] => UploadDone (upload_failed s')
             | first :: _ =>
                 AwaitTrack s' first 0
                   (fun result s'' =>
                      match result with
                      | Returns firstTrack => upload_seeded aiResponse firstTrack s''
                      | Throws _ => upload_failed s''
                      end)
             end
         end).

End UploadFlow.

(** The end of the upload flow: [final step s] says that the flow ends
    in the session [s] when it goes on from [step], whatever the replies
    and the sessions it is resumed on. *)
Inductive final : upload_step -> session -> Prop :=
| final_done : forall s, final (UploadDone s) s
| final_analysis : forall s payload resume reply s' s'',
    final (resume reply s') s'' ->
    final (AwaitAnalysis s payload resume) s''
| final_track : forall s suggestion index resume result s',
    final (AwaitTrack s suggestion index resume) (resume result s').

(** The user is sent back to the upload screen: what the [catch] block
    of [handleImageUpload] makes of the session [before]. *)
Definition sent_back (before after : session) : Prop :=
  hasUploaded after = false
  /\ isLoading after = false
  /\ App.isGenerating (world after) = false
  /\ alerts after = upload_alert :: alerts before
  /\ App.playlist (App.ui (world after)) = App.playlist (App.ui (world before)).

(* ------------------------------------------------------------------ *)
(** *** The player ([Player.tsx]) *)

(** [handleNextClick]: the seconds since the track started, from two
    readings of the clock in milliseconds. *)
Definition handleNextClick (now startTime : Z) : Q :=
  (inject_Z (now - startTime) / 1000)%Q.

(* ------------------------------------------------------------------ *)
(** *** Examples *)

(** The parts of a suspended handler. *)
Definition outcome_world (o : App.outcome) : App.world :=
  match o with
  | App.Completed w | App.Crashed w | App.Awaiting w _ _ => w
  end.

Definition outcome_request (o : App.outcome) : ai_request :=
  match o with
  | App.Awaiting _ req _ => req
  | _ => RefineRequest [] [] [] []
  end.

Definition outcome_resume (o : App.outcome)
    : sdk_reply -> Z -> App.world -> App.world :=
  match o with
  | App.Awaiting _ _ resume => resume
  | _ => fun _ _ w => w
  end.

Module Outage.

(** The catalog cannot be reached. *)
Definition down (t : trace) (url : jsstring) : http_reply := NetFailure.

(** Every request is answered with status 200 and a blank body. *)
Definition blank (t : trace) (url : jsstring) : http_reply :=
  Response 200 (Some (js "  ")).

(** Every request is answered with the one recording of the example. *)
Definition hit (t : trace) (url : jsstring) : http_reply :=
  Response 200 (Some HelloExample.body_lionel).

End Outage.

Module Upload.

Definition hello : SongSuggestion := Session.suggest (js "Hello") (js "Adele").
Definition tears : SongSuggestion :=
  Session.suggest (js "Save Your Tears") (js "The Weeknd").

Definition answer : GeminiResponse :=
  {| songs := [hello; tears]; overallMood := js "calma" |}.

Definition song_text (s : SongSuggestion) : jsstring :=
  js "{" ++ HelloExample.member (js "title") (HelloExample.quoted (title s))
  ++ js "," ++ HelloExample.member (js "artist") (HelloExample.quoted (artist s))
  ++ js ","
  ++ HelloExample.member (js "moodDescription")
       (HelloExample.quoted (moodDescription s))
  ++ js "}".

(** The text of [answer] as JSON. *)
Definition answer_text : jsstring :=
  js "{" ++ HelloExample.member (js "overallMood") (HelloExample.quoted (js "calma"))
  ++ js ","
  ++ HelloExample.member (js "songs")
       (js "[" ++ song_text hello ++ js "," ++ song_text tears ++ js "]")
  ++ js "}".

Definition parse_response (text : jsstring) : option GeminiResponse :=
  if str_eqb text answer_text then Some answer else None.

Definition photo : jsstring := js "data:image/jpeg;base64,/9j/4AAQSkZJRg==".

Definition session0 : session :=
  {| world := Session.world0; isLoading := false; hasUploaded := true;
     uploadedImage := Some photo; alerts := [] |}.

(** A playlist of two tracks the catalog did not have. *)
Definition silent : App.world :=
  {| App.ui := {| App.playlist := [fallbackTrack hello 0; fallbackTrack tears 1];
                  App.currentIndex := 1;
                  App.moodSummary := js "calma";
                  App.notification := None;
                  App.consecutiveSkips := 0 |};
     App.isGenerating := false;
     App.effects := [] |}.

(** The third fast skip of the session, up to its suspension. *)
Definition skipped : App.outcome :=
  App.dispatch ascii_toLowerCase Session.parse_songs
    (App.TrackAdvanced (1 # 2)) Session.world0.

(** The upload of [photo], up to the analysis. *)
Definition uploading : upload_step :=
  handleImageUpload parse_response photo session0.

Definition upload_resume (u : upload_step) : sdk_reply -> session -> upload_step :=
  match u with
  | AwaitAnalysis _ _ resume => resume
  | _ => fun _ s => UploadDone s
  end.

Definition upload_session (u : upload_step) : session :=
  match u with
  | UploadDone s | AwaitAnalysis s _ _ | AwaitTrack s _ _ _ => s
  end.

Definition upload_payload (u : upload_step) : option jsstring :=
  match u with
  | AwaitAnalysis _ payload _ => payload
  | _ => None
  end.

End Upload.

(* ================================================================== *)
(** ** Properties of the string primitives *)
(* ================================================================== *)

Section StringFacts.
Local Open Scope N_scope.



(** [startsWith] decides the prefix relation. *)
Lemma startsWith_spec (p s : jsstring) :
  startsWith p s = true <-> exists post, s = p ++ post.
Proof.
  revert s; induction p as [|x p IH]; intros s; simpl.
  - split; [intros _; exists s; reflexivity | reflexivity].
  - destruct s as [|y s].
    + split; [discriminate | intros [post H]; discriminate].
    + rewrite andb_true_iff, N.eqb_eq, IH. split.
      * intros [-> [post ->]]. exists post; reflexivity.
      * intros [post [= -> ->]]. split; [reflexivity | exists post; reflexivity].
Qed.

(** [includes] decides the substring relation. *)
Lemma includes_spec (needle hay : jsstring) :
  includes needle hay = true <-> exists pre post, hay = pre ++ needle ++ post.
Proof.
  induction hay as [|c hay IH].
  - simpl. rewrite orb_false_r, startsWith_spec. split.
    + intros [post H]. exists [], post. exact H.
    + intros [pre [post H]]. destruct pre; simpl in H.
      * exists post; exact H.
      * discriminate.
  - cbn [includes]. rewrite orb_true_iff, startsWith_spec, IH. split.
    + intros [[post H] | [pre [post H]]].
      * exists [], post; exact H.
      * exists (c :: pre), post. rewrite H; reflexivity.
    + intros [[|d pre] [post H]]; simpl in H.
      * left. exists post; exact H.
      * right. injection H as _ H. exists pre, post; exact H.
Qed.

Lemma includes_char (c : code_unit) (s : jsstring) :
  includes [c] s = true <-> In c s.
Proof.
  rewrite includes_spec. split.
  - intros [pre [post ->]]. apply in_or_app. right. left. reflexivity.
  - intros H. apply in_split in H. destruct H as [pre [post ->]].
    exists pre, post. reflexivity.
Qed.

Lemma trimStart_suffix (s : jsstring) : exists pre, s = pre ++ trimStart s.
Proof.
  induction s as [|c s [pre IH]]; simpl.
  - exists []; reflexivity.
  - destruct (is_ws c).
    + exists (c :: pre). simpl. f_equal. exact IH.
    + exists []; reflexivity.
Qed.

Lemma trimEnd_prefix (s : jsstring) : exists post, s = trimEnd s ++ post.
Proof.
  induction s as [|c s [post IH]]; simpl.
  - exists []; reflexivity.
  - destruct (trimEnd s) as [|d t] eqn:E.
    + destruct (is_ws c).
      * exists (c :: s); reflexivity.
      * exists s. reflexivity.
    + exists post. simpl. f_equal. exact IH.
Qed.

Lemma In_trim (x : code_unit) (s : jsstring) : In x (trim s) -> In x s.
Proof.
  unfold trim. intros H.
  destruct (trimStart_suffix s) as [pre Hs].
  destruct (trimEnd_prefix (trimStart s)) as [post He].
  rewrite Hs, He. apply in_or_app. right. apply in_or_app. left. exact H.
Qed.

Lemma trimStart_fixed (s : jsstring) : trimStart (trimStart s) = trimStart s.
Proof.
  induction s as [|c s IH]; simpl; [reflexivity|].
  destruct (is_ws c) eqn:E; [exact IH|]. simpl. rewrite E. reflexivity.
Qed.

Lemma trimEnd_fixed (s : jsstring) : trimEnd (trimEnd s) = trimEnd s.
Proof.
  induction s as [|c s IH]; simpl; [reflexivity|].
  destruct (trimEnd s) as [|d t] eqn:E.
  - destruct (is_ws c) eqn:W; simpl; [reflexivity|]. rewrite W. reflexivity.
  - change (trimEnd (c :: d :: t))
      with (match trimEnd (d :: t) with
            | [] => if is_ws c then [] else [c]
            | t' => c :: t'
            end).
    rewrite IH. reflexivity.
Qed.

(** Stripping the end of a string that starts with a visible character
    leaves its start alone. *)
Lemma trimStart_trimEnd (s : jsstring) :
  trimStart s = s -> trimStart (trimEnd s) = trimEnd s.
Proof.
  destruct s as [|c s]; [reflexivity|]. simpl.
  destruct (is_ws c) eqn:W.
  - intros H. exfalso.
    destruct (trimStart_suffix s) as [pre Hp]. rewrite H in Hp.
    apply (f_equal (@List.length _)) in Hp. rewrite length_app in Hp. simpl in Hp. lia.
  - intros _. destruct (trimEnd s); simpl; rewrite W; reflexivity.
Qed.

Lemma trim_fixed (s : jsstring) : trim (trim s) = trim s.
Proof.
  unfold trim.
  rewrite (trimStart_trimEnd (trimStart s) (trimStart_fixed s)).
  apply trimEnd_fixed.
Qed.

Lemma In_split_first (x : code_unit) (sep s : jsstring) :
  In x (split_first sep s) -> In x s.
Proof.
  induction s as [|c s IH]; simpl.
  - destruct (startsWith sep []); auto.
  - destruct (startsWith sep (c :: s)); simpl; [tauto|].
    intros [H | H]; auto.
Qed.

Lemma split_first_char (c : code_unit) (s : jsstring) :
  ~ In c (split_first [c] s).
Proof.
  induction s as [|d s IH]; simpl; [tauto|].
  destruct (c =? d) eqn:E; simpl.
  - tauto.
  - intros [H | H]; [|exact (IH H)].
    subst d. rewrite N.eqb_refl in E. discriminate.
Qed.

End StringFacts.

(* ================================================================== *)
(** ** The string normalizer *)
(* ================================================================== *)

Section Normalizer.
Local Open Scope N_scope.

Lemma replace_all_no_match (re : regex) (s : jsstring) :
  no_match re s -> replace_all re s = s.
Proof.
  unfold replace_all. induction s as [|c s IH]; intros H; simpl; [reflexivity|].
  rewrite (H [] (c :: s) eq_refl). f_equal. apply IH.
  intros pre suf E. apply (H (c :: pre) suf). rewrite E. reflexivity.
Qed.

(** A pattern that starts with a literal cannot match in a string that
    does not hold this literal. *)
Lemma no_match_without_head (c : code_unit) (re : regex) (s : jsstring) :
  ~ In c s -> no_match (Chr (lit c) :: re) s.
Proof.
  intros Hc pre [|d suf] E; simpl; [reflexivity|].
  unfold lit. destruct (d =? c) eqn:D; [|reflexivity].
  apply N.eqb_eq in D. subst d. exfalso. apply Hc. rewrite E.
  apply in_or_app. right. left. reflexivity.
Qed.

(** A word under the [i] flag matches only where the lower-cased input
    starts with it. *)
Lemma rmatch_word_ci (l suf : jsstring) :
  rmatch (List.map (fun c => Chr (lit_ci c)) l) suf <> None ->
  startsWith l (List.map ascii_lower suf) = true.
Proof.
  revert suf; induction l as [|x l IH]; intros suf; simpl; [reflexivity|].
  destruct suf as [|c suf]; [congruence|]. simpl.
  unfold lit_ci at 1. destruct (ascii_lower c =? x) eqn:E; [|congruence].
  intros H. apply N.eqb_eq in E. rewrite E, N.eqb_refl. simpl.
  apply IH. intros N0. rewrite N0 in H. apply H. reflexivity.
Qed.

Lemma no_match_word_ci (l s : jsstring) :
  includes l (List.map ascii_lower s) = false ->
  no_match (List.map (fun c => Chr (lit_ci c)) l) s.
Proof.
  intros H pre suf E.
  destruct (rmatch (List.map (fun c => Chr (lit_ci c)) l) suf) eqn:R; [|reflexivity].
  exfalso. assert (S : startsWith l (List.map ascii_lower suf) = true).
  { apply rmatch_word_ci. rewrite R. discriminate. }
  apply startsWith_spec in S. destruct S as [post S].
  assert (I : includes l (List.map ascii_lower s) = true).
  { apply includes_spec. exists (List.map ascii_lower pre), post.
    rewrite E, map_app, S. reflexivity. }
  congruence.
Qed.

Lemma existsb_false_not_In (p : code_unit -> bool) (s : jsstring) (c : code_unit) :
  existsb p s = false -> p c = true -> ~ In c s.
Proof.
  intros H Hp Hin.
  assert (existsb p s = true) by (apply existsb_exists; exists c; auto).
  congruence.
Qed.

(** In a tag-free string no replacement of [cleanString] finds a match. *)
Lemma strip_tags_tag_free (s : jsstring) :
  tag_free s = true -> strip_tags s = s.
Proof.
  unfold tag_free. rewrite andb_true_iff, !negb_true_iff. intros [Ho Hr].
  assert (P : ~ In 40 s) by (apply (existsb_false_not_In _ _ _ Ho); reflexivity).
  assert (B : ~ In 91 s) by (apply (existsb_false_not_In _ _ _ Ho); reflexivity).
  assert (D : ~ In 45 s) by (apply (existsb_false_not_In _ _ _ Ho); reflexivity).
  unfold strip_tags.
  rewrite (replace_all_no_match re_feat) by (apply no_match_without_head, P).
  rewrite (replace_all_no_match re_with) by (apply no_match_without_head, P).
  rewrite (replace_all_no_match re_bracket) by (apply no_match_without_head, B).
  rewrite (replace_all_no_match re_dash_remaster) by (apply no_match_without_head, D).
  rewrite (replace_all_no_match re_remastered) by (apply no_match_word_ci, Hr).
  rewrite (replace_all_no_match re_dash_single) by (apply no_match_without_head, D).
  apply replace_all_no_match, no_match_without_head, P.
Qed.

(** The output of [cleanString] is trimmed. *)
Lemma cleanString_trimmed (s : jsstring) : trim (cleanString s) = cleanString s.
Proof.
  unfold cleanString.
  repeat match goal with
         | |- context [if ?b then _ else _] => destruct b
         end; apply trim_fixed.
Qed.

(** The output of [cleanString] holds no [&] and no comma. *)
Lemma cleanString_no_separator (s : jsstring) :
  includes (js "&") (cleanString s) = false
  /\ includes (js ",") (cleanString s) = false.
Proof.
  unfold cleanString.
  set (c1 := trim (strip_tags s)).
  set (c2 := if includes (js "&") c1 then trim (split_first (js "&") c1) else c1).
  assert (A : includes (js "&") c2 = false).
  { subst c2. destruct (includes (js "&") c1) eqn:E; [|exact E].
    apply not_true_is_false. intros H. apply includes_char in H.
    apply In_trim in H. exact (split_first_char _ _ H). }
  destruct (includes (js ",") c2) eqn:E; [|split; assumption].
  split; apply not_true_is_false; intros H; apply includes_char in H;
    apply In_trim in H.
  - apply In_split_first in H. apply includes_char in H.
    change (includes (js "&") c2 = true) in H. congruence.
  - exact (split_first_char _ _ H).
Qed.

Lemma In_replace_from (re : regex) (x : code_unit) (s : jsstring) :
  forall skip, In x (replace_from re skip s) -> In x s.
Proof.
  induction s as [|c s IH]; intros skip; simpl; [tauto|].
  destruct skip as [|k].
  - destruct (rmatch re (c :: s)) as [[|n]|]; simpl;
      try (intros [H | H]; [left; exact H | right; exact (IH _ H)]).
    intros H. right. exact (IH _ H).
  - intros H. right. exact (IH _ H).
Qed.

(** [cleanString] only removes code units. *)
Lemma In_cleanString (x : code_unit) (s : jsstring) :
  In x (cleanString s) -> In x s.
Proof.
  assert (T : forall y, In x (trim (strip_tags y)) -> In x y).
  { intros y H. apply In_trim in H. unfold strip_tags, replace_all in H.
    repeat apply In_replace_from in H. exact H. }
  unfold cleanString.
  destruct (includes (js "&") (trim (strip_tags s)));
    match goal with
    | |- context [if ?b then _ else _] => destruct b
    end; intros H;
    repeat (apply In_trim in H; apply In_split_first in H);
    apply T; exact H.
Qed.

(** C4 (counterexample).  [cleanString] is not idempotent: removing the
    bracketed segment of ["Intro (feat[live]. Guest)"] leaves
    ["Intro (feat. Guest)"], which a second application cuts down to
    ["Intro"]. *)
Lemma cleanString_not_idempotent :
  cleanString (js "Intro (feat[live]. Guest)") = js "Intro (feat. Guest)"
  /\ cleanString (cleanString (js "Intro (feat[live]. Guest)")) = js "Intro"
  /\ cleanString (cleanString (js "Intro (feat[live]. Guest)"))
     <> cleanString (js "Intro (feat[live]. Guest)").
Proof.
  repeat split; try (vm_compute; reflexivity).
  vm_compute. discriminate.
Qed.

(** C4 (amended).  [cleanString] is idempotent on every input whose
    cleaned form is tag-free, that is, holds none of the characters
    [(], [[], [-] and no occurrence of [remastered] in any letter case:
    for such [s], [cleanString (cleanString s) = cleanString s]. *)
Theorem cleanString_idempotent_tag_free (s : jsstring) :
  tag_free (cleanString s) = true ->
  cleanString (cleanString s) = cleanString s.
Proof.
  intros T.
  pose proof (cleanString_trimmed s) as Tr.
  destruct (cleanString_no_separator s) as [A C].
  remember (cleanString s) as out eqn:E. clear E.
  unfold cleanString.
  rewrite (strip_tags_tag_free _ T), Tr, A, C. reflexivity.
Qed.

Lemma cleanString_idempotent_tag_free_witness :
  tag_free (cleanString (js "Tom & Jerry, x")) = true
  /\ cleanString (cleanString (js "Tom & Jerry, x"))
     = cleanString (js "Tom & Jerry, x").
Proof.
  split.
  - vm_compute. reflexivity.
  - apply (cleanString_idempotent_tag_free (js "Tom & Jerry, x")).
    vm_compute. reflexivity.
Defined.

End Normalizer.

(* ================================================================== *)
(** ** The resilient fetch *)
(* ================================================================== *)

Section FetchFacts.

Variable net : trace -> jsstring -> http_reply.
Variable JSON_parse : jsstring -> option data.

Lemma rev_dest {A} (l : list A) : l = [] \/ exists l' a, l = l' ++ [a].
Proof.
  induction l using rev_ind; [left; reflexivity | right; eauto].
Qed.

(** Where an element can sit in a list that ends with [a; b]. *)
Lemma split_before_two {A} (post mid ext : list A) (x a b : A) :
  post ++ x :: mid = ext ++ [a; b] ->
  (mid = [] /\ x = b) \/ (mid = [b] /\ x = a)
  \/ exists mid', mid = mid' ++ [a; b] /\ ext = post ++ x :: mid'.
Proof.
  intros E. destruct (rev_dest mid) as [-> | [m1 [z ->]]].
  - left. split; [reflexivity|].
    change (ext ++ [a; b]) with (ext ++ [a] ++ [b]) in E.
    rewrite app_assoc in E. apply app_inj_tail in E. tauto.
  - right.
    change (ext ++ [a; b]) with (ext ++ [a] ++ [b]) in E.
    rewrite app_assoc in E.
    change (post ++ x :: m1 ++ [z]) with (post ++ (x :: m1) ++ [z]) in E.
    rewrite app_assoc in E. apply app_inj_tail in E. destruct E as [E ->].
    destruct (rev_dest m1) as [-> | [m2 [y ->]]].
    + left. apply app_inj_tail in E. split; [reflexivity | tauto].
    + right. exists m2.
      change (post ++ x :: m2 ++ [y]) with (post ++ (x :: m2) ++ [y]) in E.
      rewrite app_assoc in E. apply app_inj_tail in E. destruct E as [E ->].
      split; [rewrite <- app_assoc; reflexivity | symmetry; exact E].
Qed.

Lemma attempt_trace (url : jsstring) (t : trace) :
  snd (attempt net JSON_parse url t) = EvFetch url :: t.
Proof.
  unfold attempt, bind, fetch. simpl.
  destruct (net t url) as [|status body]; [reflexivity|].
  destruct ((status =? 403) || (status =? 429))%Z; [reflexivity|].
  destruct (negb (response_ok status)); [reflexivity|].
  destruct body as [text|]; [|reflexivity].
  destruct (str_eqb text [] || str_eqb (trim text) []); [reflexivity|].
  destruct (JSON_parse text); reflexivity.
Qed.

(** An iteration that receives status 403 or 429 returns [null]. *)
Lemma attempt_rate_limited (url : jsstring) (t : trace) :
  rate_limited (net t url) = true ->
  attempt net JSON_parse url t = (Returns DNull, EvFetch url :: t).
Proof.
  unfold attempt, bind, fetch, rate_limited. simpl.
  destruct (net t url) as [|status body]; [discriminate|].
  intros ->. reflexivity.
Qed.

(** The loop only adds requests and delays to the trace. *)
Lemma retry_loop_grows (url : jsstring) (retries delay : Z) (fuel : nat) :
  forall i t, exists ext,
    snd (retry_loop net JSON_parse url retries delay fuel i t) = ext ++ t
    /\ queries ext = [].
Proof.
  induction fuel as [|fuel IH]; intros i t; simpl.
  - exists []. split; reflexivity.
  - unfold try_catch.
    pose proof (attempt_trace url t) as T.
    destruct (attempt net JSON_parse url t) as [[a|e] t1]; simpl in T; subst t1.
    + exists [EvFetch url]. split; reflexivity.
    + destruct (i =? retries)%Z.
      * exists [EvFetch url]. split; reflexivity.
      * unfold bind, emit.
        destruct (IH (i + 1)%Z (EvSleep (delay * (i + 1)) :: EvFetch url :: t))
          as [ext [E Q]].
        exists (ext ++ [EvSleep (delay * (i + 1)); EvFetch url]). split.
        -- rewrite E, <- app_assoc. reflexivity.
        -- unfold queries in *. rewrite flat_map_app, Q. reflexivity.
Qed.

Lemma retry_loop_rate_limit (url : jsstring) (retries delay : Z) (fuel : nat) :
  forall i t post u mid,
    snd (retry_loop net JSON_parse url retries delay fuel i t)
      = post ++ EvFetch u :: mid ++ t ->
    rate_limited (net (mid ++ t) u) = true ->
    fst (retry_loop net JSON_parse url retries delay fuel i t) = Returns DNull
    /\ post = [].
Proof.
  assert (one : forall (t : trace) post u mid,
             EvFetch url :: t = post ++ EvFetch u :: mid ++ t ->
             post = [] /\ mid = [] /\ u = url).
  { intros t post u mid E.
    assert (L : (List.length post + List.length mid = 0)%nat).
    { apply (f_equal (@List.length _)) in E.
      rewrite length_app in E. simpl in E. rewrite length_app in E. lia. }
    destruct post; [|simpl in L; lia]. destruct mid; [|simpl in L; lia].
    simpl in E. injection E as E. auto. }
  induction fuel as [|fuel IH]; intros i t post u mid E R.
  - simpl in E. exfalso.
    apply (f_equal (@List.length _)) in E.
    rewrite length_app in E. simpl in E. rewrite length_app in E. lia.
  - simpl in E |- *. unfold try_catch in E |- *.
    destruct (attempt net JSON_parse url t) as [[a|e] t1] eqn:A.
    + pose proof (attempt_trace url t) as T. rewrite A in T. simpl in T. subst t1.
      simpl in E. destruct (one _ _ _ _ E) as [-> [-> ->]]. simpl in R.
      rewrite (attempt_rate_limited url t R) in A. injection A as <-.
      split; reflexivity.
    + pose proof (attempt_trace url t) as T. rewrite A in T. simpl in T. subst t1.
      destruct (i =? retries)%Z.
      * simpl in E. destruct (one _ _ _ _ E) as [-> [-> ->]]. simpl in R.
        rewrite (attempt_rate_limited url t R) in A. discriminate.
      * unfold bind, emit in E |- *.
        set (t2 := EvSleep (delay * (i + 1)) :: EvFetch url :: t) in *.
        destruct (retry_loop_grows url retries delay fuel (i + 1)%Z t2)
          as [ext [G _]].
        assert (E' : post ++ EvFetch u :: mid
                     = ext ++ [EvSleep (delay * (i + 1)); EvFetch url]).
        { apply (app_inv_tail t). rewrite <- !app_assoc. simpl.
          rewrite <- E, G. reflexivity. }
        apply split_before_two in E'.
        destruct E' as [[-> Hx] | [[-> Hx] | [mid' [-> Hext]]]].
        -- injection Hx as ->. simpl in R.
           rewrite (attempt_rate_limited url t R) in A. discriminate.
        -- discriminate.
        -- apply (IH (i + 1)%Z t2 post u mid').
           ++ rewrite G, Hext, <- app_assoc. reflexivity.
           ++ rewrite <- app_assoc in R. exact R.
Qed.

(** C6.  Whatever the URL, the retry budget and the delay: a request of
    [fetchWithRetry] that is answered with status 403 or 429 is its last
    effect (no delay and no further request follows it), and the function
    returns [null]. *)
Theorem fetchWithRetry_rate_limit_no_retry
    (url : jsstring) (retries delay : Z) (t : trace)
    (post mid : trace) (u : jsstring) :
  snd (fetchWithRetry net JSON_parse url retries delay t)
    = post ++ EvFetch u :: mid ++ t ->
  rate_limited (net (mid ++ t) u) = true ->
  fst (fetchWithRetry net JSON_parse url retries delay t) = Returns DNull
  /\ post = [].
Proof.
  unfold fetchWithRetry, bind, emit. intros E R.
  destruct (retry_loop_grows url retries delay (Z.to_nat (retries + 1)) 0%Z
              (EvQuery url :: t)) as [ext [G _]].
  destruct (rev_dest mid) as [-> | [mid' [z ->]]].
  - exfalso. simpl in E. rewrite G in E.
    change (ext ++ EvQuery url :: t) with (ext ++ [EvQuery url] ++ t) in E.
    change (post ++ EvFetch u :: t) with (post ++ [EvFetch u] ++ t) in E.
    rewrite !app_assoc in E. apply app_inv_tail in E.
    apply app_inj_tail in E. destruct E as [_ E]. discriminate.
  - assert (Z0 : z = EvQuery url /\ ext = post ++ EvFetch u :: mid').
    { rewrite G in E.
      change (ext ++ EvQuery url :: t) with (ext ++ [EvQuery url] ++ t) in E.
      change (post ++ EvFetch u :: (mid' ++ [z]) ++ t)
        with (post ++ (EvFetch u :: mid' ++ [z]) ++ t) in E.
      rewrite !app_assoc in E. apply app_inv_tail in E.
      change (post ++ EvFetch u :: mid' ++ [z])
        with (post ++ (EvFetch u :: mid') ++ [z]) in E.
      rewrite app_assoc in E. apply app_inj_tail in E. destruct E as [E1 E2].
      split; [symmetry; exact E2 | exact E1]. }
    destruct Z0 as [-> Hext].
    apply (retry_loop_rate_limit url retries delay (Z.to_nat (retries + 1))
             0%Z (EvQuery url :: t) post u mid').
    + rewrite G, Hext, <- app_assoc. reflexivity.
    + rewrite <- app_assoc in R. exact R.
Qed.

End FetchFacts.

Lemma fetchWithRetry_rate_limit_no_retry_witness :
  snd (fetchWithRetry HelloExample.flaky HelloExample.JSON_parse
         (js "https://itunes.apple.com/search?term=x") 2 500 [])
    = [] ++ EvFetch (js "https://itunes.apple.com/search?term=x")
         :: [EvSleep 500; EvFetch (js "https://itunes.apple.com/search?term=x");
             EvQuery (js "https://itunes.apple.com/search?term=x")] ++ []
  /\ fst (fetchWithRetry HelloExample.flaky HelloExample.JSON_parse
            (js "https://itunes.apple.com/search?term=x") 2 500 [])
     = Returns DNull.
Proof.
  split; [vm_compute; reflexivity|].
  apply (fetchWithRetry_rate_limit_no_retry HelloExample.flaky
           HelloExample.JSON_parse
           (js "https://itunes.apple.com/search?term=x") 2 500 [] []
           [EvSleep 500; EvFetch (js "https://itunes.apple.com/search?term=x");
            EvQuery (js "https://itunes.apple.com/search?term=x")]
           (js "https://itunes.apple.com/search?term=x")).
  - vm_compute. reflexivity.
  - vm_compute. reflexivity.
Defined.

(* ================================================================== *)
(** ** The track resolver *)
(* ================================================================== *)

(** Case analysis on every [match] of a goal about the monadic code. *)
Ltac split_cases :=
  repeat match goal with
         | |- context [match ?x with _ => _ end] =>
             lazymatch x with
             | context [match _ with _ => _ end] => fail
             | _ => destruct x eqn:?; cbn [fst snd]
             end
         end.

Ltac unfold_resolver :=
  unfold fetchTrackDetails, secondary_search, use_first_result,
    bind, try_catch, encode, ret, throw.

Section ResolverFacts.

Variable net : trace -> jsstring -> http_reply.
Variable JSON_parse : jsstring -> option data.
Variable toLowerCase : jsstring -> jsstring.

(** One call of [fetchWithRetry] is one query. *)
Lemma fetchWithRetry_one_query (url : jsstring) (retries delay : Z) (t : trace) :
  exists ext, snd (fetchWithRetry net JSON_parse url retries delay t) = ext ++ t
              /\ queries ext = [url].
Proof.
  unfold fetchWithRetry, bind, emit.
  destruct (retry_loop_grows net JSON_parse url retries delay
              (Z.to_nat (retries + 1)) 0%Z (EvQuery url :: t)) as [ext [G Q]].
  exists (ext ++ [EvQuery url]). split.
  - rewrite G, <- app_assoc. reflexivity.
  - unfold queries in *. rewrite flat_map_app, Q. reflexivity.
Qed.

Lemma primary_url_encode (s : SongSuggestion) (url : jsstring) :
  primary_url s = Some url ->
  exists q, encodeURIComponent (cleanString (title s) ++ js " "
                                ++ cleanString (artist s)) = Some q
            /\ url = search_url q (js "1").
Proof.
  unfold primary_url.
  destruct (encodeURIComponent _) as [q|]; simpl; [|discriminate].
  intros [= <-]. exists q. split; reflexivity.
Qed.

Lemma secondary_url_encode (s : SongSuggestion) (url : jsstring) :
  secondary_url s = Some url ->
  exists q, encodeURIComponent (cleanString (title s)) = Some q
            /\ url = search_url q (js "5").
Proof.
  unfold secondary_url.
  destruct (encodeURIComponent _) as [q|]; simpl; [|discriminate].
  intros [= <-]. exists q. split; reflexivity.
Qed.

(** The resolver returns the fallback Track or a Track built from a
    catalog entry. *)
Lemma fetchTrackDetails_result (s : SongSuggestion) (index : Z) (t : trace)
    (track : Track) :
  fst (fetchTrackDetails net JSON_parse toLowerCase s index t) = Returns track ->
  track = fallbackTrack s index \/ exists c, track = resolvedTrack s index c.
Proof.
  unfold_resolver. split_cases; intros [= <-];
    solve [left; reflexivity | right; eexists; reflexivity].
Qed.

(** Whatever Track the resolver returns, [isPlayable] tells whether the
    preview URL is a non-empty string. *)
Lemma fetchTrackDetails_playable (s : SongSuggestion) (index : Z) (t : trace)
    (track : Track) :
  fst (fetchTrackDetails net JSON_parse toLowerCase s index t) = Returns track ->
  isPlayable track = true
  <-> exists c u, previewUrl track = Some (c :: u).
Proof.
  intros H. apply fetchTrackDetails_result in H.
  destruct H as [-> | [c ->]]; simpl.
  - split; [discriminate | intros [c [u H]]; discriminate].
  - destruct (Catalog.previewUrl c) as [[|x u]|]; simpl;
      (split; [try discriminate; eauto | intros [y [v H]]; congruence]).
Qed.

(** Once the primary query string is built, the resolver returns. *)
Lemma fetchTrackDetails_returns (s : SongSuggestion) (index : Z) (t : trace)
    (url : jsstring) :
  primary_url s = Some url ->
  exists track,
    fst (fetchTrackDetails net JSON_parse toLowerCase s index t) = Returns track.
Proof.
  intros H. apply primary_url_encode in H. destruct H as [q [E _]].
  unfold_resolver. rewrite E. split_cases; eauto.
Qed.

(** A string without surrogate code units can be encoded. *)
Lemma encodeURIComponent_without_surrogates (s : jsstring) :
  (forall c, In c s -> is_lead c = false /\ is_trail c = false) ->
  exists q, encodeURIComponent s = Some q.
Proof.
  induction s as [|c s IH]; intros H; simpl; [eexists; reflexivity|].
  destruct IH as [q E]; [intros d I; apply H; right; exact I|].
  destruct (H c (or_introl eq_refl)) as [L T]. rewrite L, T, E.
  destruct (unreserved c); eexists; reflexivity.
Qed.

(** For a suggestion whose title and artist hold no surrogate code unit
    the resolver returns a Track. *)
Lemma fetchTrackDetails_returns_without_surrogates
    (s : SongSuggestion) (index : Z) (t : trace) :
  (forall c, In c (title s) \/ In c (artist s) ->
             is_lead c = false /\ is_trail c = false) ->
  exists track,
    fst (fetchTrackDetails net JSON_parse toLowerCase s index t) = Returns track.
Proof.
  intros H.
  destruct (encodeURIComponent_without_surrogates
              (cleanString (title s) ++ js " " ++ cleanString (artist s)))
    as [q E].
  { intros c I. apply in_app_or in I. destruct I as [I | I].
    - apply H. left. apply In_cleanString. exact I.
    - apply in_app_or in I. destruct I as [[<- | []] | I].
      + split; reflexivity.
      + apply H. right. apply In_cleanString. exact I. }
  apply (fetchTrackDetails_returns s index t (search_url q (js "1"))).
  unfold primary_url. rewrite E. reflexivity.
Qed.

(** C1 (the code at the failing input).  A title that holds a lone
    surrogate code unit makes [encodeURIComponent] throw before the [try]
    block of the resolver is entered: [fetchTrackDetails] throws
    [URIError] instead of returning a Track, without any request. *)
Theorem fetchTrackDetails_lone_surrogate_throws (index : Z) (t : trace) :
  fetchTrackDetails net JSON_parse toLowerCase
    {| title := [55296%N]; artist := []; moodDescription := [] |} index t
  = (Throws URIError, t).
Proof. reflexivity. Qed.

(** C5.  When the primary query of a suggestion returns [null], the
    resolver returns the fallback Track, and the primary query is the
    only call of [fetchWithRetry] it made. *)
Theorem fetchTrackDetails_rate_limit_short_circuit
    (s : SongSuggestion) (index : Z) (t : trace) (url : jsstring) :
  primary_url s = Some url ->
  fst (fetchWithRetry net JSON_parse url 2 500 t) = Returns DNull ->
  fst (fetchTrackDetails net JSON_parse toLowerCase s index t)
    = Returns (fallbackTrack s index)
  /\ snd (fetchTrackDetails net JSON_parse toLowerCase s index t)
     = snd (fetchWithRetry net JSON_parse url 2 500 t)
  /\ exists ext,
       snd (fetchTrackDetails net JSON_parse toLowerCase s index t) = ext ++ t
       /\ queries ext = [url].
Proof.
  intros H N. apply primary_url_encode in H. destruct H as [q [E ->]].
  assert (R : fetchTrackDetails net JSON_parse toLowerCase s index t
              = (Returns (fallbackTrack s index),
                 snd (fetchWithRetry net JSON_parse
                        (search_url q (js "1")) 2 500 t))).
  { unfold fetchTrackDetails, bind, try_catch, encode, ret. rewrite E.
    destruct (fetchWithRetry net JSON_parse (search_url q (js "1")) 2 500 t)
      as [r t1]. simpl in N. subst r. reflexivity. }
  rewrite R. simpl. repeat split.
  apply fetchWithRetry_one_query.
Qed.

(** C2 (amended).  When the primary query returns an answer other than
    [null] with zero results, the resolver issues the title-only query
    and returns the Track of [track_from_secondary]: built from the first
    candidate whose artist name contains the cleaned artist, from the
    first candidate of the answer when no candidate passes this filter,
    and the fallback Track when the answer holds no candidate, is [null]
    or the query fails. *)
Theorem fetchTrackDetails_secondary
    (s : SongSuggestion) (index : Z) (t t1 : trace) (url1 url2 : jsstring)
    (d0 : data) :
  primary_url s = Some url1 ->
  secondary_url s = Some url2 ->
  fetchWithRetry net JSON_parse url1 2 500 t = (Returns d0, t1) ->
  d0 <> DNull ->
  falsy d0 || count_is_zero d0 = true ->
  fetchTrackDetails net JSON_parse toLowerCase s index t
  = (Returns (track_from_secondary toLowerCase s index
                (fst (fetchWithRetry net JSON_parse url2 2 500 t1))),
     snd (fetchWithRetry net JSON_parse url2 2 500 t1)).
Proof.
  intros H1 H2 F N Z0.
  apply primary_url_encode in H1. destruct H1 as [q1 [E1 ->]].
  apply secondary_url_encode in H2. destruct H2 as [q2 [E2 ->]].
  assert (P0 : count_positive d0 = false).
  { destruct d0 as [| |d|b]; try reflexivity. simpl in Z0 |- *.
    destruct (Catalog.resultCount d) as [n|]; [|reflexivity].
    apply Z.eqb_eq in Z0. subst n. reflexivity. }
  unfold fetchTrackDetails, bind, try_catch, encode, ret. rewrite E1, F.
  assert (D : forall (A : Type) (x y : A),
             match d0 with DNull => x | _ => y end = y).
  { intros A x y. destruct d0; congruence. }
  rewrite D, Z0. clear D.
  unfold secondary_search, bind, try_catch, encode, ret. rewrite E2.
  destruct (fetchWithRetry net JSON_parse (search_url q2 (js "5")) 2 500 t1)
    as [[d1|e] t2]; simpl.
  - destruct d1 as [| |d|b]; simpl; try reflexivity.
    unfold track_from_secondary, preferred_candidate, use_first_result. simpl.
    destruct d as [[n|] [rs|]]; simpl; try reflexivity.
    + destruct (0 <? n)%Z eqn:Pn; simpl; [|rewrite Pn; reflexivity].
      destruct (find (artist_matches toLowerCase (cleanString (artist s))) rs)
        as [m|] eqn:Fd; simpl; [reflexivity|].
      rewrite Pn. destruct rs; reflexivity.
    + destruct (0 <? n)%Z eqn:Pn; simpl; rewrite Pn; reflexivity.
  - unfold use_first_result. rewrite P0. reflexivity.
Qed.

End ResolverFacts.

(** C2 (counterexample).  The exact query for ["Hello"] by ["Adele"]
    finds nothing and the title-only query finds one recording by
    ["Lionel Richie"]: the candidate does not pass the artist filter, and
    the resolver still builds its Track from it instead of returning the
    fallback Track. *)
Lemma secondary_candidate_without_artist_match :
  artist_matches ascii_toLowerCase
    (cleanString (artist HelloExample.suggestion)) HelloExample.lionel = false
  /\ fst (fetchTrackDetails HelloExample.net HelloExample.JSON_parse
            ascii_toLowerCase HelloExample.suggestion 0%Z [])
     = Returns (resolvedTrack HelloExample.suggestion 0 HelloExample.lionel)
  /\ fst (fetchTrackDetails HelloExample.net HelloExample.JSON_parse
            ascii_toLowerCase HelloExample.suggestion 0%Z [])
     <> Returns (fallbackTrack HelloExample.suggestion 0).
Proof.
  split; [vm_compute; reflexivity|].
  split; [vm_compute; reflexivity|].
  vm_compute. discriminate.
Qed.

Lemma fetchTrackDetails_secondary_witness :
  fst (fetchTrackDetails HelloExample.net HelloExample.JSON_parse
         ascii_toLowerCase HelloExample.suggestion 0%Z [])
  = Returns (resolvedTrack HelloExample.suggestion 0 HelloExample.lionel).
Proof.
  rewrite (fetchTrackDetails_secondary HelloExample.net HelloExample.JSON_parse
             ascii_toLowerCase HelloExample.suggestion 0%Z []
             (snd (fetchWithRetry HelloExample.net HelloExample.JSON_parse
                     (search_url (js "Hello%20Adele") (js "1")) 2 500 []))
             (search_url (js "Hello%20Adele") (js "1"))
             (search_url (js "Hello") (js "5"))
             (DSearch {| Catalog.resultCount := Some 0%Z;
                         Catalog.results := Some [] |})).
  - vm_compute. reflexivity.
  - vm_compute. reflexivity.
  - vm_compute. reflexivity.
  - vm_compute. reflexivity.
  - discriminate.
  - vm_compute. reflexivity.
Defined.

Lemma fetchTrackDetails_rate_limit_short_circuit_witness :
  fst (fetchTrackDetails HelloExample.refusing HelloExample.JSON_parse
         ascii_toLowerCase HelloExample.suggestion 7%Z [])
    = Returns (fallbackTrack HelloExample.suggestion 7)
  /\ queries (snd (fetchTrackDetails HelloExample.refusing
                     HelloExample.JSON_parse ascii_toLowerCase
                     HelloExample.suggestion 7%Z []))
     = [search_url (js "Hello%20Adele") (js "1")].
Proof.
  destruct (fetchTrackDetails_rate_limit_short_circuit HelloExample.refusing
              HelloExample.JSON_parse ascii_toLowerCase
              HelloExample.suggestion 7%Z []
              (search_url (js "Hello%20Adele") (js "1")))
    as [R [_ [ext [E Q]]]].
  - vm_compute. reflexivity.
  - vm_compute. reflexivity.
  - split; [exact R|]. rewrite E, app_nil_r. exact Q.
Defined.

(* ================================================================== *)
(** ** Appending a batch *)
(* ================================================================== *)

Section AppendBatch.

Variable toLowerCase : jsstring -> jsstring.



(** What [addSongsToPlaylist] does to the playlist. *)
Lemma addSongsToPlaylist_playlist (snapshot : list Track) (now : Z)
    (newSongs : list SongSuggestion) (w : App.world) :
  App.playlist (App.ui (App.addSongsToPlaylist toLowerCase snapshot now newSongs w))
  = App.playlist (App.ui w)
    ++ App.placeholders (Z.of_nat (List.length snapshot)) now 0
         (App.uniqueSuggestions toLowerCase snapshot newSongs).
Proof.
  unfold App.addSongsToPlaylist.
  destruct (App.uniqueSuggestions toLowerCase snapshot newSongs) as [|u us];
    simpl; [rewrite app_nil_r|]; reflexivity.
Qed.

Lemma placeholders_songs (len now : Z) (songs : list SongSuggestion) :
  forall idx, List.map song (App.placeholders len now idx songs) = songs.
Proof.
  induction songs as [|s songs IH]; intros idx; simpl; [|rewrite IH]; reflexivity.
Qed.

(** C10.  When every suggestion of a batch is a duplicate of a track of
    the playlist, [addSongsToPlaylist] changes nothing: the playlist, the
    notification and the effects started (no notification, no backfill
    pass) are those of before. *)
Theorem addSongsToPlaylist_all_duplicates (snapshot : list Track) (now : Z)
    (newSongs : list SongSuggestion) (w : App.world) :
  (forall s, In s newSongs -> App.isDuplicate toLowerCase snapshot s = true) ->
  App.addSongsToPlaylist toLowerCase snapshot now newSongs w = w.
Proof.
  intros H. unfold App.addSongsToPlaylist.
  assert (E : App.uniqueSuggestions toLowerCase snapshot newSongs = []).
  { unfold App.uniqueSuggestions. induction newSongs as [|s l IH]; simpl.
    - reflexivity.
    - rewrite (H s (or_introl eq_refl)). simpl. apply IH.
      intros s' I. apply H. right. exact I. }
  rewrite E. reflexivity.
Qed.


End AppendBatch.

Lemma addSongsToPlaylist_all_duplicates_witness :
  App.addSongsToPlaylist ascii_toLowerCase
    (App.playlist (App.ui Session.world0)) 1700000000000%Z
    [Session.suggest (js " LEVITATING ") (js "Dua Lipa");
     Session.suggest (js "Lights") (js "Weeknd")] Session.world0
  = Session.world0.
Proof.
  apply (addSongsToPlaylist_all_duplicates ascii_toLowerCase
           (App.playlist (App.ui Session.world0)) 1700000000000%Z
           [Session.suggest (js " LEVITATING ") (js "Dua Lipa");
            Session.suggest (js "Lights") (js "Weeknd")] Session.world0).
  intros s [<- | [<- | []]]; vm_compute; reflexivity.
Defined.


(* ================================================================== *)
(** ** The engagement policy and the generation lock *)
(* ================================================================== *)

Section Engagement.

Variable toLowerCase : jsstring -> jsstring.
Variable parse_songs : jsstring -> option (list SongSuggestion).

Lemma addSongsToPlaylist_lock (snapshot : list Track) (now : Z)
    (newSongs : list SongSuggestion) (w : App.world) :
  App.isGenerating (App.addSongsToPlaylist toLowerCase snapshot now newSongs w)
  = App.isGenerating w.
Proof.
  unfold App.addSongsToPlaylist.
  destruct (0 <? _)%nat; reflexivity.
Qed.



(** A like with the lock free takes the lock and calls the AI service;
    the lock is released when the flow resumes, whatever the reply. *)
Lemma handleLike_free (snap : App.state) (track : Track) (w : App.world) :
  App.isGenerating w = false ->
  exists w' req resume,
    App.handleLike toLowerCase parse_songs snap track w
      = App.Awaiting w' req resume
    /\ App.isGenerating w' = true
    /\ App.ai_calls w' = req :: App.ai_calls w
    /\ forall reply now w2, App.isGenerating (resume reply now w2) = false.
Proof.
  intros G. unfold App.handleLike. rewrite G.
  eexists _, _, _. split; [reflexivity|]. repeat split.
Qed.







End Engagement.

Section SkipCounter.

Variable toLowerCase : jsstring -> jsstring.
Variable parse_songs : jsstring -> option (list SongSuggestion).

Lemma all_playable_current (w : App.world) :
  all_playable w ->
  exists cur,
    App.at_index (App.playlist (App.ui w)) (App.currentIndex (App.ui w)) = Some cur
    /\ isPlayable cur = true.
Proof.
  intros [[Lo Hi] P]. unfold App.at_index.
  destruct (App.currentIndex (App.ui w) <? 0)%Z eqn:N; [lia|].
  destruct (nth_error (App.playlist (App.ui w))
              (Z.to_nat (App.currentIndex (App.ui w)))) as [cur|] eqn:E.
  - exists cur. split; [reflexivity|].
    rewrite Forall_forall in P. apply P. eapply nth_error_In. exact E.
  - apply nth_error_None in E. lia.
Qed.

Lemma all_playable_advance (w : App.world) (n : Z) :
  all_playable w ->
  all_playable (advance (App.ui w) (App.setConsecutiveSkips n w)).
Proof.
  intros [[Lo Hi] P]. split; [|exact P]. simpl.
  apply Z.rem_bound_pos; lia.
Qed.

Lemma Qle_bool_false (d : Q) : (d < 8)%Q -> Qle_bool 8 d = false.
Proof.
  intros H. apply not_true_is_false. intros B.
  apply Qle_bool_iff in B. exact (Qlt_not_le _ _ H B).
Qed.

(** A track listened to for eight seconds or more resets the counter. *)
Lemma handleNext_listened (w : App.world) (d : Q) :
  all_playable w -> (8 <= d)%Q ->
  App.dispatch toLowerCase parse_songs (App.TrackAdvanced d) w
  = App.Completed (advance (App.ui w) (App.setConsecutiveSkips 0 w)).
Proof.
  intros A H. destruct (all_playable_current w A) as [cur [E P]].
  simpl. unfold App.handleNext. rewrite E, P.
  apply Qle_bool_iff in H. rewrite H. reflexivity.
Qed.

(** A fast skip below the threshold only counts. *)
Lemma handleNext_fast_skip (w : App.world) (d : Q) :
  all_playable w -> (d < 8)%Q ->
  (App.consecutiveSkips (App.ui w) + 1 < 3)%Z ->
  App.dispatch toLowerCase parse_songs (App.TrackAdvanced d) w
  = App.Completed
      (advance (App.ui w)
         (App.setConsecutiveSkips (App.consecutiveSkips (App.ui w) + 1) w)).
Proof.
  intros A H L. destruct (all_playable_current w A) as [cur [E P]].
  simpl. unfold App.handleNext. rewrite E, P, (Qle_bool_false d H).
  cbn [negb]. destruct (3 <=? _)%Z eqn:C; [apply Z.leb_le in C; lia|].
  reflexivity.
Qed.

(** The fast skip that reaches the threshold with the lock free starts
    the pivot. *)
Lemma handleNext_pivot (w : App.world) (d : Q) :
  all_playable w -> (d < 8)%Q ->
  (3 <= App.consecutiveSkips (App.ui w) + 1)%Z ->
  App.isGenerating w = false ->
  exists w' mood skipped excluded resume,
    App.dispatch toLowerCase parse_songs (App.TrackAdvanced d) w
    = App.Awaiting w' (PivotRequest mood skipped excluded) resume
    /\ App.consecutiveSkips (App.ui w') = 0%Z.
Proof.
  intros A H L G. destruct (all_playable_current w A) as [cur [E P]].
  simpl. unfold App.handleNext. rewrite E, P, (Qle_bool_false d H).
  cbn [negb App.isGenerating App.setConsecutiveSkips]. rewrite G.
  destruct (3 <=? _)%Z eqn:C; [|apply Z.leb_gt in C; lia].
  cbn [andb negb]. unfold App.handlePivot.
  cbn [App.isGenerating App.setConsecutiveSkips]. rewrite G.
  unfold pivot_request. eexists _, _, _, _, _. split; reflexivity.
Qed.

(** C3 (amended).  With the counter at 2, a track advance on a playable
    track after eight seconds or more resets the counter to 0; the next
    two fast skips of playable tracks bring it to 1 and to 2 without any
    AI call, and it is the third fast skip that starts the pivot (the
    lock being free) and resets the counter. *)
Theorem skip_counter_reset_needs_three (w : App.world) (d0 d1 d2 d3 : Q) :
  App.consecutiveSkips (App.ui w) = 2%Z ->
  all_playable w ->
  App.isGenerating w = false ->
  (8 <= d0)%Q -> (d1 < 8)%Q -> (d2 < 8)%Q -> (d3 < 8)%Q ->
  exists w1 w2 w3,
    App.dispatch toLowerCase parse_songs (App.TrackAdvanced d0) w
      = App.Completed w1
    /\ App.consecutiveSkips (App.ui w1) = 0%Z
    /\ App.dispatch toLowerCase parse_songs (App.TrackAdvanced d1) w1
       = App.Completed w2
    /\ App.consecutiveSkips (App.ui w2) = 1%Z
    /\ App.dispatch toLowerCase parse_songs (App.TrackAdvanced d2) w2
       = App.Completed w3
    /\ App.consecutiveSkips (App.ui w3) = 2%Z
    /\ App.ai_calls w3 = App.ai_calls w
    /\ exists w4 mood skipped excluded resume,
         App.dispatch toLowerCase parse_songs (App.TrackAdvanced d3) w3
         = App.Awaiting w4 (PivotRequest mood skipped excluded) resume
         /\ App.consecutiveSkips (App.ui w4) = 0%Z.
Proof.
  intros S A G H0 H1 H2 H3.
  set (w1 := advance (App.ui w) (App.setConsecutiveSkips 0 w)).
  assert (A1 : all_playable w1) by (apply all_playable_advance, A).
  set (w2 := advance (App.ui w1) (App.setConsecutiveSkips 1 w1)).
  assert (A2 : all_playable w2) by (apply all_playable_advance, A1).
  set (w3 := advance (App.ui w2) (App.setConsecutiveSkips 2 w2)).
  assert (A3 : all_playable w3) by (apply all_playable_advance, A2).
  exists w1, w2, w3.
  split; [apply handleNext_listened; assumption|].
  split; [reflexivity|].
  split; [apply (handleNext_fast_skip w1 d1 A1 H1); simpl; lia|].
  split; [reflexivity|].
  split; [apply (handleNext_fast_skip w2 d2 A2 H2); simpl; lia|].
  split; [reflexivity|].
  split; [reflexivity|].
  apply (handleNext_pivot w3 d3 A3 H3); [simpl; lia | exact G].
Qed.

End SkipCounter.

(** C3 (counterexample).  In a session with the counter at 2, after a
    track listened to for ten seconds, two fast skips of playable tracks
    start no pivot: both handlers complete, no AI service was called and
    the counter stands at 2. *)
Lemma two_fast_skips_after_reset_no_pivot :
  exists w1 w2 w3,
    App.dispatch ascii_toLowerCase Session.parse_songs
      (App.TrackAdvanced 10) Session.world0 = App.Completed w1
    /\ App.dispatch ascii_toLowerCase Session.parse_songs
         (App.TrackAdvanced 1) w1 = App.Completed w2
    /\ App.dispatch ascii_toLowerCase Session.parse_songs
         (App.TrackAdvanced 1) w2 = App.Completed w3
    /\ App.ai_calls w3 = []
    /\ App.isGenerating w3 = false
    /\ App.consecutiveSkips (App.ui w3) = 2%Z.
Proof.
  eexists _, _, _.
  split; [vm_compute; reflexivity|].
  split; [vm_compute; reflexivity|].
  split; [vm_compute; reflexivity|].
  repeat split.
Qed.

Lemma skip_counter_reset_needs_three_witness :
  exists w1 w2 w3,
    App.dispatch ascii_toLowerCase Session.parse_songs
      (App.TrackAdvanced 10) Session.world0 = App.Completed w1
    /\ App.consecutiveSkips (App.ui w1) = 0%Z
    /\ App.dispatch ascii_toLowerCase Session.parse_songs
         (App.TrackAdvanced 1) w1 = App.Completed w2
    /\ App.consecutiveSkips (App.ui w2) = 1%Z
    /\ App.dispatch ascii_toLowerCase Session.parse_songs
         (App.TrackAdvanced 1) w2 = App.Completed w3
    /\ App.consecutiveSkips (App.ui w3) = 2%Z
    /\ App.ai_calls w3 = App.ai_calls Session.world0
    /\ exists w4 mood skipped excluded resume,
         App.dispatch ascii_toLowerCase Session.parse_songs
           (App.TrackAdvanced (1 # 2)) w3
         = App.Awaiting w4 (PivotRequest mood skipped excluded) resume
         /\ App.consecutiveSkips (App.ui w4) = 0%Z.
Proof.
  apply (skip_counter_reset_needs_three ascii_toLowerCase
           Session.parse_songs Session.world0 10 1 1 (1 # 2)).
  - reflexivity.
  - split; [simpl; lia | repeat constructor].
  - reflexivity.
  - vm_compute. discriminate.
  - reflexivity.
  - reflexivity.
  - reflexivity.
Defined.



(* ================================================================== *)
(** ** More on the string normalizer *)
(* ================================================================== *)

Section NormalizerShape.
Local Open Scope N_scope.

Lemma subseq_refl {A} (l : list A) : subseq l l.
Proof. induction l; constructor; assumption. Qed.

Lemma subseq_trans {A} (l1 l2 l3 : list A) :
  subseq l1 l2 -> subseq l2 l3 -> subseq l1 l3.
Proof.
  intros H12 H23. revert l1 H12.
  induction H23 as [|x l2 l3 H IH|x l2 l3 H IH]; intros l1 H12.
  - exact H12.
  - constructor. apply IH. exact H12.
  - inversion H12; subst.
    + constructor. apply IH. assumption.
    + apply subseq_keep. apply IH. assumption.
Qed.

Lemma subseq_nil_l {A} (l : list A) : subseq [] l.
Proof. induction l; constructor; assumption. Qed.

Lemma subseq_length {A} (l l' : list A) :
  subseq l l' -> (List.length l <= List.length l')%nat.
Proof. induction 1; simpl; lia. Qed.

Lemma subseq_app_r {A} (pre l : list A) : subseq l (pre ++ l).
Proof. induction pre; simpl; [apply subseq_refl | constructor; assumption]. Qed.

Lemma subseq_app_l {A} (l post : list A) : subseq l (l ++ post).
Proof.
  induction l; simpl; [apply subseq_nil_l | apply subseq_keep; assumption].
Qed.

Lemma subseq_replace_from (re : regex) (s : jsstring) :
  forall skip, subseq (replace_from re skip s) s.
Proof.
  induction s as [|c s IH]; intros skip; simpl; [constructor|].
  destruct skip as [|k].
  - destruct (rmatch re (c :: s)) as [[|n]|];
      try (apply subseq_keep; apply IH).
    constructor. apply IH.
  - constructor. apply IH.
Qed.

Lemma subseq_trim (s : jsstring) : subseq (trim s) s.
Proof.
  unfold trim.
  destruct (trimStart_suffix s) as [pre Hs].
  destruct (trimEnd_prefix (trimStart s)) as [post He].
  apply subseq_trans with (trimStart s).
  - rewrite He at 2. apply subseq_app_l.
  - rewrite Hs at 2. apply subseq_app_r.
Qed.

Lemma split_first_prefix (sep s : jsstring) :
  exists post, s = split_first sep s ++ post.
Proof.
  induction s as [|c s [post IH]]; simpl.
  - destruct (startsWith sep []); exists []; reflexivity.
  - destruct (startsWith sep (c :: s)).
    + exists (c :: s). reflexivity.
    + exists post. simpl. f_equal. exact IH.
Qed.

Lemma subseq_split_first (sep s : jsstring) : subseq (split_first sep s) s.
Proof.
  destruct (split_first_prefix sep s) as [post H].
  rewrite H at 2. apply subseq_app_l.
Qed.

(** X2.  [cleanString] only deletes: its output is the input with some
    code units left out, in the same order, and is never longer. *)
Theorem cleanString_subsequence (s : jsstring) :
  subseq (cleanString s) s
  /\ (List.length (cleanString s) <= List.length s)%nat.
Proof.
  assert (H : subseq (cleanString s) s).
  { assert (T : subseq (trim (strip_tags s)) s).
    { apply subseq_trans with (strip_tags s); [apply subseq_trim|].
      unfold strip_tags, replace_all.
      repeat (eapply subseq_trans; [apply subseq_replace_from|]).
      apply subseq_refl. }
    unfold cleanString.
    destruct (includes (js "&") (trim (strip_tags s)));
      match goal with
      | |- context [if ?b then _ else _] => destruct b
      end;
      repeat (eapply subseq_trans;
              [apply subseq_trim | eapply subseq_trans; [apply subseq_split_first|]]);
      exact T. }
  split; [exact H | apply subseq_length; exact H].
Qed.

Lemma trimStart_head (c : code_unit) (rest : jsstring) :
  trimStart (c :: rest) = c :: rest -> is_ws c = false.
Proof.
  simpl. destruct (is_ws c); [|reflexivity].
  intros H. exfalso. destruct (trimStart_suffix rest) as [pre Hp].
  rewrite H in Hp. apply (f_equal (@List.length _)) in Hp.
  rewrite length_app in Hp. simpl in Hp. lia.
Qed.

Lemma trimEnd_app_ws (front : jsstring) (c : code_unit) :
  is_ws c = true -> trimEnd (front ++ [c]) = trimEnd front.
Proof.
  intros W. induction front as [|a front IH]; simpl.
  - rewrite W. reflexivity.
  - rewrite IH. reflexivity.
Qed.

Lemma trimEnd_last (front : jsstring) (c : code_unit) :
  trimEnd (front ++ [c]) = front ++ [c] -> is_ws c = false.
Proof.
  destruct (is_ws c) eqn:W; [|reflexivity].
  intros H. exfalso. rewrite (trimEnd_app_ws front c W) in H.
  destruct (trimEnd_prefix front) as [post Hp].
  rewrite H in Hp. apply (f_equal (@List.length _)) in Hp.
  rewrite !length_app in Hp. simpl in Hp. lia.
Qed.

Lemma trim_fixed_ends (s : jsstring) :
  trim s = s -> trimStart s = s /\ trimEnd s = s.
Proof.
  unfold trim. intros H. split.
  - rewrite <- H at 1.
    rewrite (trimStart_trimEnd (trimStart s) (trimStart_fixed s)). exact H.
  - rewrite <- H at 1. rewrite trimEnd_fixed. exact H.
Qed.

(** X1.  The output of [cleanString] holds no [&] and no comma, and
    neither starts nor ends with a white-space character. *)
Theorem cleanString_output_shape (s : jsstring) :
  ~ In 38 (cleanString s)
  /\ ~ In 44 (cleanString s)
  /\ (forall c rest, cleanString s = c :: rest -> is_ws c = false)
  /\ (forall front c, cleanString s = front ++ [c] -> is_ws c = false).
Proof.
  destruct (cleanString_no_separator s) as [A C].
  destruct (trim_fixed_ends _ (cleanString_trimmed s)) as [TS TE].
  split; [intros H; apply includes_char in H;
          change (includes (js "&") (cleanString s) = true) in H; congruence|].
  split; [intros H; apply includes_char in H;
          change (includes (js ",") (cleanString s) = true) in H; congruence|].
  split.
  - intros c rest E. rewrite E in TS. exact (trimStart_head c rest TS).
  - intros front c E. rewrite E in TE. exact (trimEnd_last front c TE).
Qed.

Lemma ws_not_opener (c : code_unit) : is_ws c = true -> tag_opener c = false.
Proof.
  intros W. unfold tag_opener.
  destruct (c =? 40) eqn:E1; [apply N.eqb_eq in E1; subst; discriminate|].
  destruct (c =? 91) eqn:E2; [apply N.eqb_eq in E2; subst; discriminate|].
  destruct (c =? 45) eqn:E3; [apply N.eqb_eq in E3; subst; discriminate|].
  reflexivity.
Qed.

Lemma ascii_lower_r (c : code_unit) : ascii_lower c = 114 -> c = 114 \/ c = 82.
Proof.
  unfold ascii_lower.
  destruct ((65 <=? c) && (c <=? 90)); intros H; [right | left]; lia.
Qed.

Lemma blank_tag_free (s : jsstring) :
  (forall c, In c s -> is_ws c = true) -> tag_free s = true.
Proof.
  intros H. unfold tag_free. apply andb_true_iff. split; apply negb_true_iff.
  - apply not_true_is_false. intros E. apply existsb_exists in E.
    destruct E as [c [I O]]. rewrite (ws_not_opener c (H c I)) in O. discriminate.
  - apply not_true_is_false. intros E. apply includes_spec in E.
    destruct E as [pre [post E]].
    assert (I : In 114 (List.map ascii_lower s)).
    { rewrite E. apply in_or_app. right. left. reflexivity. }
    apply in_map_iff in I. destruct I as [c [L I]].
    specialize (H c I). apply ascii_lower_r in L.
    destruct L; subst c; discriminate.
Qed.

Lemma trimStart_blank (s : jsstring) :
  (forall c, In c s -> is_ws c = true) -> trimStart s = [].
Proof.
  induction s as [|c s IH]; intros H; simpl; [reflexivity|].
  rewrite (H c (or_introl eq_refl)). apply IH. intros d I. apply H. right. exact I.
Qed.

(** X3.  A string of white space only, the empty string among them, is
    cleaned to the empty string. *)
Theorem cleanString_blank (s : jsstring) :
  (forall c, In c s -> is_ws c = true) -> cleanString s = [].
Proof.
  intros H. unfold cleanString.
  rewrite (strip_tags_tag_free s (blank_tag_free s H)).
  unfold trim. rewrite (trimStart_blank s H). reflexivity.
Qed.








End NormalizerShape.

Lemma cleanString_blank_witness : cleanString (js "   ") = [].
Proof.
  apply (cleanString_blank (js "   ")).
  intros c [<- | [<- | [<- | []]]]; reflexivity.
Defined.


(* ================================================================== *)
(** ** [encodeURIComponent] *)
(* ================================================================== *)

Section UriFacts.
Local Open Scope N_scope.

Lemma unreserved_ascii (c : code_unit) : unreserved c = true -> c < 128.
Proof.
  unfold unreserved.
  rewrite !orb_true_iff, !andb_true_iff, !N.leb_le, !N.eqb_eq. lia.
Qed.

Lemma unreserved_no_surrogate (c : code_unit) :
  unreserved c = true -> is_lead c = false /\ is_trail c = false.
Proof.
  intros U. apply unreserved_ascii in U. unfold is_lead, is_trail.
  split; apply andb_false_iff; left; apply N.leb_gt; lia.
Qed.

Lemma hex_digit_unreserved (n : N) : n < 16 -> unreserved (hex_digit n) = true.
Proof.
  intros H. unfold hex_digit, unreserved.
  destruct (n <? 10) eqn:E.
  - apply N.ltb_lt in E.
    rewrite !orb_true_iff, !andb_true_iff, !N.leb_le, !N.eqb_eq. lia.
  - apply N.ltb_ge in E.
    rewrite !orb_true_iff, !andb_true_iff, !N.leb_le, !N.eqb_eq. lia.
Qed.

(** An escaped octet is a percent sign and two unreserved characters. *)
Lemma percent_alphabet (b : N) (x : code_unit) :
  b < 256 -> In x (percent b) -> unreserved x = true \/ x = 37.
Proof.
  intros B [<- | [<- | [<- | []]]].
  - right. reflexivity.
  - left. apply hex_digit_unreserved. apply N.Div0.div_lt_upper_bound. lia.
  - left. apply hex_digit_unreserved. apply N.mod_lt. lia.
Qed.

Lemma utf8_octets (cp b : N) : cp < 1114112 -> In b (utf8 cp) -> b < 256.
Proof.
  intros C. unfold utf8.
  destruct (cp <? 128) eqn:E1; [apply N.ltb_lt in E1; intros [<- | []]; lia|].
  assert (M : forall y, y mod 64 < 64) by (intros y; apply N.mod_lt; lia).
  destruct (cp <? 2048) eqn:E2.
  - apply N.ltb_lt in E2. intros [<- | [<- | []]].
    + assert (cp / 64 < 32) by (apply N.Div0.div_lt_upper_bound; lia). lia.
    + specialize (M cp). lia.
  - destruct (cp <? 65536) eqn:E3.
    + apply N.ltb_lt in E3. intros [<- | [<- | [<- | []]]].
      * assert (cp / 4096 < 16) by (apply N.Div0.div_lt_upper_bound; lia). lia.
      * specialize (M (cp / 64)). lia.
      * specialize (M cp). lia.
    + intros [<- | [<- | [<- | [<- | []]]]].
      * assert (cp / 262144 < 5) by (apply N.Div0.div_lt_upper_bound; lia). lia.
      * specialize (M (cp / 4096)). lia.
      * specialize (M (cp / 64)). lia.
      * specialize (M cp). lia.
Qed.

Lemma escape_alphabet (cp : N) (x : code_unit) :
  cp < 1114112 -> In x (escape cp) -> unreserved x = true \/ x = 37.
Proof.
  intros C I. unfold escape in I. apply in_flat_map in I.
  destruct I as [b [Ib Ix]].
  exact (percent_alphabet b x (utf8_octets cp b C Ib) Ix).
Qed.

Lemma encodeURIComponent_alphabet_aux (n : nat) :
  forall s q,
    (List.length s <= n)%nat ->
    (forall c, In c s -> c < 65536) ->
    encodeURIComponent s = Some q ->
    forall x, In x q -> unreserved x = true \/ x = 37.
Proof.
  induction n as [|n IH]; intros s q L B E x I.
  - destruct s; [|simpl in L; lia]. injection E as <-. destruct I.
  - destruct s as [|c rest]; [injection E as <-; destruct I|].
    simpl in E, L.
    assert (Br : forall d, In d rest -> d < 65536)
      by (intros d Id; apply B; right; exact Id).
    destruct (unreserved c) eqn:U.
    + destruct (encodeURIComponent rest) as [q'|] eqn:R; [|discriminate].
      injection E as <-. destruct I as [<- | I]; [left; exact U|].
      apply (IH rest q'); auto; lia.
    + destruct (is_trail c) eqn:T; [discriminate|].
      destruct (is_lead c) eqn:Ld.
      * destruct rest as [|d rest']; [discriminate|].
        destruct (is_trail d) eqn:Td; [|discriminate].
        destruct (encodeURIComponent rest') as [q'|] eqn:R; [|discriminate].
        injection E as <-. apply in_app_or in I. destruct I as [I | I].
        -- apply (escape_alphabet ((c - 55296) * 1024 + (d - 56320) + 65536) x);
             [|exact I].
           unfold is_lead in Ld. unfold is_trail in Td.
           apply andb_true_iff in Ld. apply andb_true_iff in Td.
           rewrite !N.leb_le in Ld. rewrite !N.leb_le in Td. lia.
        -- apply (IH rest' q'); auto; [simpl in L; lia|].
           intros e Ie. apply Br. right. exact Ie.
      * destruct (encodeURIComponent rest) as [q'|] eqn:R; [|discriminate].
        injection E as <-. apply in_app_or in I. destruct I as [I | I].
        -- apply (escape_alphabet c x); [|exact I].
           specialize (B c (or_introl eq_refl)). lia.
        -- apply (IH rest q'); auto; lia.
Qed.

(** X5.  Whatever [encodeURIComponent] returns for a string of 16-bit
    code units holds only unreserved characters and percent signs: no
    [&], [=], [#], [?] or space can reach the query string. *)
Theorem encodeURIComponent_alphabet (s q : jsstring) :
  (forall c, In c s -> c < 65536) ->
  encodeURIComponent s = Some q ->
  forall x, In x q -> unreserved x = true \/ x = 37.
Proof.
  intros B E. exact (encodeURIComponent_alphabet_aux (List.length s) s q
                       (Nat.le_refl _) B E).
Qed.

Lemma well_formed_encodes (s : jsstring) :
  well_formed s -> encodeURIComponent s <> None.
Proof.
  induction 1 as [|c s L T W IH|c d s L T W IH]; simpl.
  - discriminate.
  - rewrite L, T.
    destruct (unreserved c); destruct (encodeURIComponent s);
      simpl; congruence.
  - destruct (unreserved c) eqn:U.
    + apply unreserved_no_surrogate in U. destruct U; congruence.
    + assert (Tc : is_trail c = false).
      { unfold is_lead in L. unfold is_trail.
        apply andb_true_iff in L. rewrite !N.leb_le in L.
        apply andb_false_iff. left. apply N.leb_gt. lia. }
      rewrite Tc, L, T. destruct (encodeURIComponent s); simpl; congruence.
Qed.

Lemma encodes_well_formed_aux (n : nat) :
  forall s, (List.length s <= n)%nat ->
            encodeURIComponent s <> None -> well_formed s.
Proof.
  induction n as [|n IH]; intros s L E.
  - destruct s; [constructor | simpl in L; lia].
  - destruct s as [|c rest]; [constructor|]. simpl in E, L.
    destruct (unreserved c) eqn:U.
    + destruct (unreserved_no_surrogate c U) as [Lc Tc].
      apply wf_unit; auto. apply IH; [lia|].
      destruct (encodeURIComponent rest); [discriminate | exact E].
    + destruct (is_trail c) eqn:T; [congruence|].
      destruct (is_lead c) eqn:Ld.
      * destruct rest as [|d rest']; [congruence|].
        destruct (is_trail d) eqn:Td; [|congruence].
        apply wf_pair; auto. apply IH; [simpl in L; lia|].
        destruct (encodeURIComponent rest'); [discriminate | exact E].
      * apply wf_unit; auto. apply IH; [lia|].
        destruct (encodeURIComponent rest); [discriminate | exact E].
Qed.

(** X6.  [encodeURIComponent] throws exactly on the strings that are
    not well-formed UTF-16, those with a surrogate code unit outside a
    pair. *)
Theorem encodeURIComponent_throws_iff (s : jsstring) :
  encodeURIComponent s = None <-> ~ well_formed s.
Proof.
  split.
  - intros E W. exact (well_formed_encodes s W E).
  - intros N0. destruct (encodeURIComponent s) eqn:E; [|reflexivity].
    exfalso. apply N0. apply (encodes_well_formed_aux (List.length s) s);
      [apply Nat.le_refl | congruence].
Qed.

End UriFacts.

Lemma encodeURIComponent_alphabet_witness :
  encodeURIComponent (js "AC/DC & Tom?" ++ [233; 55357; 56832]%N)
  = Some (js "AC%2FDC%20%26%20Tom%3F%C3%A9%F0%9F%98%80")
  /\ forall x, In x (js "AC%2FDC%20%26%20Tom%3F%C3%A9%F0%9F%98%80") ->
               unreserved x = true \/ x = 37%N.
Proof.
  split; [vm_compute; reflexivity|].
  apply (encodeURIComponent_alphabet (js "AC/DC & Tom?" ++ [233; 55357; 56832]%N)).
  - intros c I. vm_compute in I.
    repeat (destruct I as [<- | I]; [reflexivity|]). destruct I.
  - vm_compute. reflexivity.
Defined.

(* ================================================================== *)
(** ** More on the resilient fetch *)
(* ================================================================== *)

Section RetryFacts.

Variable net : trace -> jsstring -> http_reply.
Variable JSON_parse : jsstring -> option data.

(** The delays of [k] failed attempts that follow attempt [i]. *)
Lemma delays_step (delay i : Z) (k : nat) :
  List.map (fun j => (delay * (i + 1 + Z.of_nat j))%Z) (rev (seq 1 k))
  ++ [(delay * (i + 1))%Z]
  = List.map (fun j => (delay * (i + Z.of_nat j))%Z) (rev (seq 1 (S k))).
Proof.
  change (seq 1 (S k)) with (1%nat :: seq 2 k).
  rewrite <- (seq_shift k 1). simpl rev. rewrite map_app. simpl List.map.
  rewrite <- map_rev, map_map. f_equal.
  apply map_ext. intros j. f_equal. lia.
Qed.

Lemma retry_loop_S (url : jsstring) (retries delay : Z) (fuel : nat) (i : Z) :
  retry_loop net JSON_parse url retries delay (S fuel) i
  = try_catch (attempt net JSON_parse url)
      (fun error =>
         if (i =? retries)%Z then throw error
         else bind (emit (EvSleep (delay * (i + 1))))
                (fun _ => retry_loop net JSON_parse url retries delay fuel
                            (i + 1)%Z)).
Proof. reflexivity. Qed.

(** The effects of the loop when its fuel is the number of iterations
    the budget leaves: [k + 1] requests, all to [url], separated by the
    [k] delays of a linear backoff. *)
Lemma retry_loop_effects (url : jsstring) (retries delay : Z) (fuel : nat) :
  forall i t,
    Z.of_nat (S fuel) = (retries + 1 - i)%Z ->
    exists k ext,
      (k <= fuel)%nat
      /\ snd (retry_loop net JSON_parse url retries delay (S fuel) i t) = ext ++ t
      /\ queries ext = []
      /\ requests ext = repeat url (S k)
      /\ delays ext
         = List.map (fun j => (delay * (i + Z.of_nat j))%Z) (rev (seq 1 k)).
Proof.
  induction fuel as [|fuel IH]; intros i t F.
  - exists 0%nat, [EvFetch url]. split; [lia|]. simpl. unfold try_catch.
    pose proof (attempt_trace net JSON_parse url t) as T.
    destruct (attempt net JSON_parse url t) as [[a|e] t1]; simpl in T; subst t1.
    + repeat split.
    + assert (E : (i =? retries)%Z = true) by (apply Z.eqb_eq; lia).
      rewrite E. repeat split.
  - rewrite retry_loop_S. unfold try_catch.
    pose proof (attempt_trace net JSON_parse url t) as T.
    destruct (attempt net JSON_parse url t) as [[a|e] t1] eqn:A;
      simpl in T; subst t1.
    + exists 0%nat, [EvFetch url]. split; [lia|]. repeat split.
    + assert (E : (i =? retries)%Z = false) by (apply Z.eqb_neq; lia).
      rewrite E. unfold bind, emit. cbn beta iota.
      destruct (IH (i + 1)%Z (EvSleep (delay * (i + 1)) :: EvFetch url :: t))
        as [k [ext [K [S0 [Q [R D]]]]]]; [lia|].
      exists (S k), (ext ++ [EvSleep (delay * (i + 1)); EvFetch url]).
      split; [lia|]. split; [rewrite S0, <- app_assoc; reflexivity|].
      split; [unfold queries in *; rewrite flat_map_app, Q; reflexivity|].
      split; [unfold requests in *; rewrite flat_map_app, R; simpl;
              rewrite <- repeat_cons; reflexivity|].
      unfold delays in *. rewrite flat_map_app, D. simpl. apply delays_step.
Qed.

(** One call makes one query and at most [retries + 1] requests. *)
Lemma fetchWithRetry_requests_bound (url : jsstring) (retries delay : Z)
    (t : trace) :
  exists ext,
    snd (fetchWithRetry net JSON_parse url retries delay t) = ext ++ t
    /\ queries ext = [url]
    /\ (List.length (requests ext) <= Z.to_nat (retries + 1))%nat.
Proof.
  unfold fetchWithRetry, bind, emit.
  destruct (Z.to_nat (retries + 1)) as [|fuel] eqn:F.
  - exists [EvQuery url]. repeat split. simpl. lia.
  - destruct (retry_loop_effects url retries delay fuel 0%Z (EvQuery url :: t))
      as [k [ext [K [S0 [Q [R D]]]]]]; [lia|].
    exists (ext ++ [EvQuery url]).
    split; [rewrite S0, <- app_assoc; reflexivity|].
    split; [unfold queries in *; rewrite flat_map_app, Q; reflexivity|].
    unfold requests in *. rewrite flat_map_app, R. simpl.
    rewrite app_nil_r, repeat_length. lia.
Qed.

(** X7.  [fetchWithRetry] makes at most [retries + 1] requests, all of
    them to the URL it was given; between two requests it waits, for
    [delay], then twice [delay], and so on (a linear backoff), and it
    does not wait after its last request. *)
Theorem fetchWithRetry_bounded_backoff (url : jsstring) (retries delay : Z)
    (t : trace) :
  exists k ext,
    snd (fetchWithRetry net JSON_parse url retries delay t) = ext ++ t
    /\ queries ext = [url]
    /\ (forall u, In u (requests ext) -> u = url)
    /\ (List.length (requests ext) <= Z.to_nat (retries + 1))%nat
    /\ List.length (requests ext) = (if (retries <? 0)%Z then 0 else S k)%nat
    /\ delays ext = backoff delay k.
Proof.
  unfold fetchWithRetry, bind, emit.
  destruct (Z.to_nat (retries + 1)) as [|fuel] eqn:F.
  - exists 0%nat, [EvQuery url]. simpl.
    assert (N : (retries <? 0)%Z = true) by (apply Z.ltb_lt; lia).
    rewrite N. repeat split; auto. intros u [].
  - destruct (retry_loop_effects url retries delay fuel 0%Z (EvQuery url :: t))
      as [k [ext [K [S0 [Q [R D]]]]]]; [lia|].
    exists k, (ext ++ [EvQuery url]).
    assert (N : (retries <? 0)%Z = false) by (apply Z.ltb_ge; lia).
    rewrite N.
    assert (R' : requests (ext ++ [EvQuery url]) = repeat url (S k)).
    { unfold requests in *. rewrite flat_map_app, R. simpl.
      rewrite app_nil_r. reflexivity. }
    split; [rewrite S0, <- app_assoc; reflexivity|].
    split; [unfold queries in *; rewrite flat_map_app, Q; reflexivity|].
    split; [rewrite R'; intros u I; exact (repeat_spec _ _ _ I)|].
    split; [rewrite R', repeat_length; lia|].
    split; [rewrite R', repeat_length; reflexivity|].
    unfold delays in *. rewrite flat_map_app, D. simpl. rewrite app_nil_r.
    unfold backoff. apply map_ext. intros j. f_equal.
Qed.

Lemma attempt_transient (url : jsstring) (t : trace) :
  transient (net t url) = true ->
  exists e, attempt net JSON_parse url t = (Throws e, EvFetch url :: t).
Proof.
  unfold attempt, bind, fetch, transient. simpl.
  destruct (net t url) as [|status body].
  - intros _. exists NetworkError. reflexivity.
  - intros H. apply andb_true_iff in H. destruct H as [H1 H2].
    apply negb_true_iff in H1. rewrite H1, H2.
    exists (HttpError status). reflexivity.
Qed.

Lemma retry_loop_exhausted (url : jsstring) (retries delay : Z) (fuel : nat) :
  (forall t', transient (net t' url) = true) ->
  forall i t,
    Z.of_nat (S fuel) = (retries + 1 - i)%Z ->
    exists e ext,
      retry_loop net JSON_parse url retries delay (S fuel) i t
        = (Throws e, ext ++ t)
      /\ requests ext = repeat url (S fuel)
      /\ delays ext
         = List.map (fun j => (delay * (i + Z.of_nat j))%Z) (rev (seq 1 fuel)).
Proof.
  intros H. induction fuel as [|fuel IH]; intros i t F.
  - destruct (attempt_transient url t (H t)) as [e A].
    exists e, [EvFetch url]. simpl. unfold try_catch. rewrite A.
    assert (E : (i =? retries)%Z = true) by (apply Z.eqb_eq; lia).
    rewrite E. repeat split.
  - destruct (attempt_transient url t (H t)) as [e A].
    rewrite retry_loop_S. unfold try_catch. rewrite A.
    assert (E : (i =? retries)%Z = false) by (apply Z.eqb_neq; lia).
    rewrite E. unfold bind, emit. cbn beta iota.
    destruct (IH (i + 1)%Z (EvSleep (delay * (i + 1)) :: EvFetch url :: t))
      as [e' [ext [R [Rq D]]]]; [lia|].
    exists e', (ext ++ [EvSleep (delay * (i + 1)); EvFetch url]).
    split; [rewrite R, <- app_assoc; reflexivity|].
    split; [unfold requests in *; rewrite flat_map_app, Rq; simpl;
            rewrite <- repeat_cons; reflexivity|].
    unfold delays in *. rewrite flat_map_app, D. simpl. apply delays_step.
Qed.

(** X8.  When every request to the URL fails (no response, or a status
    that is neither a success nor 403 or 429), [fetchWithRetry] throws
    after exactly [retries + 1] requests and [retries] delays. *)
Theorem fetchWithRetry_exhausted (url : jsstring) (retries delay : Z)
    (t : trace) :
  (0 <= retries)%Z ->
  (forall t', transient (net t' url) = true) ->
  exists e ext,
    fetchWithRetry net JSON_parse url retries delay t = (Throws e, ext ++ t)
    /\ List.length (requests ext) = S (Z.to_nat retries)
    /\ delays ext = backoff delay (Z.to_nat retries).
Proof.
  intros P H. unfold fetchWithRetry, bind, emit.
  replace (Z.to_nat (retries + 1)) with (S (Z.to_nat retries)) by lia.
  destruct (retry_loop_exhausted url retries delay (Z.to_nat retries) H 0%Z
              (EvQuery url :: t)) as [e [ext [R [Rq D]]]]; [lia|].
  exists e, (ext ++ [EvQuery url]). rewrite R.
  split; [rewrite <- app_assoc; reflexivity|].
  split.
  - unfold requests in *. rewrite flat_map_app, Rq. simpl.
    rewrite app_nil_r, repeat_length. reflexivity.
  - unfold delays in *. rewrite flat_map_app, D. simpl. rewrite app_nil_r.
    unfold backoff. apply map_ext. intros j. f_equal.
Qed.

(** X9.  A successful response whose body is empty or white space only
    is an answer without results: [fetchWithRetry] returns
    [{ resultCount: 0, results: [] }] after this one request, and
    [JSON.parse] is not consulted. *)
Theorem fetchWithRetry_empty_body (url : jsstring) (retries delay : Z)
    (t : trace) (status : Z) (text : jsstring) :
  (0 <= retries)%Z ->
  net (EvQuery url :: t) url = Response status (Some text) ->
  response_ok status = true ->
  trim text = [] ->
  fetchWithRetry net JSON_parse url retries delay t
  = (Returns (DSearch {| Catalog.resultCount := Some 0%Z;
                         Catalog.results := Some [] |}),
     EvFetch url :: EvQuery url :: t).
Proof.
  intros P N O B. unfold fetchWithRetry, bind, emit.
  replace (Z.to_nat (retries + 1)) with (S (Z.to_nat retries)) by lia.
  cbn [retry_loop]. unfold try_catch, attempt, bind, fetch. rewrite N.
  assert (R : ((status =? 403) || (status =? 429))%Z = false).
  { unfold response_ok in O. apply andb_true_iff in O.
    rewrite !Z.leb_le in O. apply orb_false_iff.
    split; apply Z.eqb_neq; lia. }
  rewrite R, O, B. cbn [negb]. rewrite orb_true_r. reflexivity.
Qed.

End RetryFacts.

Lemma fetchWithRetry_exhausted_witness :
  exists e ext,
    fetchWithRetry Outage.down HelloExample.JSON_parse
      (js "https://itunes.apple.com/search?term=x") 2 500 []
    = (Throws e, ext ++ [])
    /\ List.length (requests ext) = 3%nat
    /\ delays ext = [1000; 500]%Z.
Proof.
  apply (fetchWithRetry_exhausted Outage.down HelloExample.JSON_parse
           (js "https://itunes.apple.com/search?term=x") 2 500 []).
  - lia.
  - reflexivity.
Defined.

Lemma fetchWithRetry_empty_body_witness :
  fetchWithRetry Outage.blank HelloExample.JSON_parse
    (js "https://itunes.apple.com/search?term=x") 2 500 []
  = (Returns (DSearch {| Catalog.resultCount := Some 0%Z;
                         Catalog.results := Some [] |}),
     [EvFetch (js "https://itunes.apple.com/search?term=x");
      EvQuery (js "https://itunes.apple.com/search?term=x")]).
Proof.
  apply (fetchWithRetry_empty_body Outage.blank HelloExample.JSON_parse
           (js "https://itunes.apple.com/search?term=x") 2 500 [] 200
           (js "  ")).
  - lia.
  - reflexivity.
  - reflexivity.
  - vm_compute. reflexivity.
Defined.

(* ================================================================== *)
(** ** More on the track resolver *)
(* ================================================================== *)

Section ResolverMore.

Variable net : trace -> jsstring -> http_reply.
Variable JSON_parse : jsstring -> option data.
Variable toLowerCase : jsstring -> jsstring.

(** The effects of one call of [fetchWithRetry] with the default budget. *)
Lemma fetchWithRetry_default_effects (url : jsstring) (t : trace) :
  exists ext,
    snd (fetchWithRetry net JSON_parse url 2 500 t) = ext ++ t
    /\ queries ext = [url]
    /\ (List.length (requests ext) <= 3)%nat.
Proof. exact (fetchWithRetry_requests_bound net JSON_parse url 2 500 t). Qed.

(** The trace of the resolver is that of the primary query, followed or
    not by that of the secondary query. *)
Lemma fetchTrackDetails_trace (s : SongSuggestion) (index : Z) (t : trace)
    (url1 : jsstring) :
  primary_url s = Some url1 ->
  snd (fetchTrackDetails net JSON_parse toLowerCase s index t)
    = snd (fetchWithRetry net JSON_parse url1 2 500 t)
  \/ exists url2,
       secondary_url s = Some url2
       /\ snd (fetchTrackDetails net JSON_parse toLowerCase s index t)
          = snd (fetchWithRetry net JSON_parse url2 2 500
                   (snd (fetchWithRetry net JSON_parse url1 2 500 t))).
Proof.
  intros H. apply primary_url_encode in H. destruct H as [q [E ->]].
  unfold secondary_url. unfold_resolver. rewrite E.
  destruct (fetchWithRetry net JSON_parse (search_url q (js "1")) 2 500 t)
    as [r1 t1]. cbn [fst snd].
  destruct r1 as [d0|e]; [|left; reflexivity].
  destruct d0 as [| |d|b]; try (left; reflexivity);
    (destruct (_ || _); [|split_cases; left; reflexivity]);
    (destruct (encodeURIComponent (cleanString (title s))) as [q2|];
     [|left; reflexivity]);
    right; exists (search_url q2 (js "5")); (split; [reflexivity|]);
    destruct (fetchWithRetry net JSON_parse (search_url q2 (js "5")) 2 500 t1)
      as [r2 t2]; cbn [fst snd]; split_cases; reflexivity.
Qed.

(** X10.  The resolver makes one catalog query, or two: the exact query
    first, then at most the title-only one; never more than six HTTP
    requests. *)
Theorem fetchTrackDetails_at_most_two_queries (s : SongSuggestion) (index : Z)
    (t : trace) (url1 : jsstring) :
  primary_url s = Some url1 ->
  exists ext,
    snd (fetchTrackDetails net JSON_parse toLowerCase s index t) = ext ++ t
    /\ (queries ext = [url1]
        \/ exists url2, secondary_url s = Some url2 /\ queries ext = [url2; url1])
    /\ (List.length (requests ext) <= 6)%nat.
Proof.
  intros H.
  destruct (fetchWithRetry_default_effects url1 t) as [e1 [S1 [Q1 L1]]].
  destruct (fetchTrackDetails_trace s index t url1 H) as [T | [url2 [U T]]].
  - exists e1. rewrite T. split; [exact S1|]. split; [left; exact Q1 | lia].
  - destruct (fetchWithRetry_default_effects url2
                (snd (fetchWithRetry net JSON_parse url1 2 500 t)))
      as [e2 [S2 [Q2 L2]]].
    exists (e2 ++ e1). rewrite T, S2, S1, app_assoc. split; [reflexivity|].
    split.
    + right. exists url2. split; [exact U|].
      unfold queries in *. rewrite flat_map_app, Q1, Q2. reflexivity.
    + unfold requests in *. rewrite flat_map_app, length_app. lia.
Qed.

(** X11.  When the exact query finds a result, the Track is built from
    its first entry and the title-only query is not made. *)
Theorem fetchTrackDetails_primary_hit (s : SongSuggestion) (index : Z)
    (t t1 : trace) (url1 : jsstring) (n : Z) (c : Catalog.item)
    (rs : list Catalog.item) :
  primary_url s = Some url1 ->
  fetchWithRetry net JSON_parse url1 2 500 t
    = (Returns (DSearch {| Catalog.resultCount := Some n;
                           Catalog.results := Some (c :: rs) |}), t1) ->
  (0 < n)%Z ->
  fetchTrackDetails net JSON_parse toLowerCase s index t
  = (Returns (resolvedTrack s index c), t1).
Proof.
  intros H F P. apply primary_url_encode in H. destruct H as [q [E ->]].
  assert (Z0 : (n =? 0)%Z = false) by (apply Z.eqb_neq; lia).
  assert (P0 : (0 <? n)%Z = true) by (apply Z.ltb_lt; lia).
  unfold_resolver. rewrite E, F.
  cbn [falsy count_is_zero Catalog.resultCount orb]. rewrite Z0.
  cbn [count_positive Catalog.resultCount Catalog.results]. rewrite P0.
  reflexivity.
Qed.

(** X12.  When the catalog cannot be reached, the resolver makes the
    three requests of the exact query, 500 and 1000 ms apart, gives up
    without trying the title-only query and returns the fallback
    Track. *)
Theorem fetchTrackDetails_catalog_down (s : SongSuggestion) (index : Z)
    (t : trace) (url1 : jsstring) :
  primary_url s = Some url1 ->
  (forall t', transient (net t' url1) = true) ->
  fetchTrackDetails net JSON_parse toLowerCase s index t
  = (Returns (fallbackTrack s index),
     [EvFetch url1; EvSleep 1000; EvFetch url1; EvSleep 500; EvFetch url1;
      EvQuery url1] ++ t).
Proof.
  intros H D. apply primary_url_encode in H. destruct H as [q [E ->]].
  set (url := search_url q (js "1")) in *.
  assert (A : forall t', exists e,
               attempt net JSON_parse url t' = (Throws e, EvFetch url :: t'))
    by (intros t'; apply attempt_transient, D).
  unfold fetchTrackDetails, bind, try_catch, encode, ret. rewrite E.
  fold url. unfold fetchWithRetry, bind, emit.
  change (Z.to_nat (2 + 1)) with 3%nat.
  rewrite !retry_loop_S. unfold try_catch, bind, emit, throw.
  destruct (A (EvQuery url :: t)) as [e1 ->]. cbn beta iota.
  change (0 =? 2)%Z with false. cbn beta iota.
  destruct (A (EvSleep (500 * (0 + 1)) :: EvFetch url :: EvQuery url :: t))
    as [e2 ->]. cbn beta iota.
  change (0 + 1 =? 2)%Z with false. cbn beta iota.
  destruct (A (EvSleep (500 * (0 + 1 + 1)) :: EvFetch url
               :: EvSleep (500 * (0 + 1)) :: EvFetch url :: EvQuery url :: t))
    as [e3 ->]. cbn beta iota.
  change (0 + 1 + 1 =? 2)%Z with true. cbn beta iota.
  reflexivity.
Qed.

Lemma or_str_nonempty (o : option jsstring) (b : jsstring) :
  b <> [] -> or_str o b <> [].
Proof. destruct o as [[|x a]|]; simpl; auto; discriminate. Qed.

(** X13.  Whatever Track the resolver returns carries the mood
    description of the suggestion, has a cover, has a title and an
    artist when the suggestion has them, and is playable exactly when
    its preview URL is a non-empty string. *)
Theorem fetchTrackDetails_track_shape (s : SongSuggestion) (index : Z)
    (t : trace) (track : Track) :
  fst (fetchTrackDetails net JSON_parse toLowerCase s index t) = Returns track ->
  moodDescription (song track) = moodDescription s
  /\ coverUrl track <> []
  /\ (title s <> [] -> title (song track) <> [])
  /\ (artist s <> [] -> artist (song track) <> [])
  /\ (isPlayable track = true <-> exists c u, previewUrl track = Some (c :: u)).
Proof.
  intros H. pose proof (fetchTrackDetails_playable _ _ _ _ _ _ _ H) as P.
  apply fetchTrackDetails_result in H.
  assert (SC : stock_cover <> []) by (vm_compute; discriminate).
  destruct H as [-> | [c ->]].
  - repeat split; try apply P; auto.
  - split; [reflexivity|].
    split; [apply or_str_nonempty, SC|].
    split; [apply or_str_nonempty|].
    split; [apply or_str_nonempty | exact P].
Qed.

(** [replace_first] leaves a string without the pattern alone, and
    otherwise replaces its first occurrence. *)
Lemma replace_first_spec (pat rep s : jsstring) :
  (includes pat s = false /\ replace_first pat rep s = s)
  \/ exists pre post,
       s = pre ++ pat ++ post
       /\ replace_first pat rep s = pre ++ rep ++ post
       /\ (forall front back, pre = front ++ back -> back <> [] ->
           startsWith pat (back ++ pat ++ post) = false).
Proof.
  induction s as [|c s IH].
  - simpl. destruct (startsWith pat []) eqn:S0.
    + right. apply startsWith_spec in S0. destruct S0 as [post S0].
      destruct pat; [|discriminate]. destruct post; [|discriminate].
      exists [], []. repeat split.
      intros front back B. destruct front; destruct back; try discriminate.
      congruence.
    + left. split; reflexivity.
  - cbn [replace_first includes].
    destruct (startsWith pat (c :: s)) eqn:S0.
    + right. pose proof S0 as S1. apply startsWith_spec in S1.
      destruct S1 as [post S1].
      exists [], post. split; [exact S1|]. split.
      * rewrite S1, skipn_app, skipn_all, Nat.sub_diag. reflexivity.
      * intros front back B. destruct front; destruct back; try discriminate.
        congruence.
    + destruct IH as [[N R] | [pre [post [E [R F]]]]].
      * left. simpl. rewrite N, R. split; reflexivity.
      * right. exists (c :: pre), post. split; [rewrite E; reflexivity|].
        split; [rewrite R; reflexivity|].
        intros front back B NB. destruct front as [|x front].
        -- simpl in B. subst back. simpl. rewrite <- E. exact S0.
        -- injection B as _ B. exact (F front back B NB).
Qed.

(** X14.  The cover of a resolved Track is the artwork URL of the
    catalog with the first [100x100bb] replaced by [600x600bb]; it is
    the artwork URL itself when the marker does not occur, and the stock
    picture when the catalog gives no artwork. *)
Theorem resolvedTrack_cover (s : SongSuggestion) (index : Z) (c : Catalog.item) :
  match Catalog.artworkUrl100 c with
  | None | Some [] => coverUrl (resolvedTrack s index c) = stock_cover
  | Some art =>
      (includes (js "100x100bb") art = false
       /\ coverUrl (resolvedTrack s index c) = art)
      \/ exists pre post,
           art = pre ++ js "100x100bb" ++ post
           /\ coverUrl (resolvedTrack s index c) = pre ++ js "600x600bb" ++ post
           /\ (forall front back, pre = front ++ back -> back <> [] ->
               startsWith (js "100x100bb") (back ++ js "100x100bb" ++ post)
               = false)
  end.
Proof.
  unfold resolvedTrack. simpl coverUrl.
  destruct (Catalog.artworkUrl100 c) as [[|x a]|]; try reflexivity.
  cbn [truthy_str option_map].
  destruct (replace_first_spec (js "100x100bb") (js "600x600bb") (x :: a))
    as [[N R] | [pre [post [E [R F]]]]].
  - left. split; [exact N|]. rewrite R. reflexivity.
  - right. exists pre, post. split; [exact E|]. split; [|exact F].
    rewrite R. destruct pre; reflexivity.
Qed.

(** X29.  For a suggestion whose title and artist hold no surrogate code
    unit the resolver never throws, whatever the network and the
    catalog do: it returns the fallback Track or a Track built from a
    catalog entry. *)
Theorem fetchTrackDetails_never_throws_without_surrogates
    (s : SongSuggestion) (index : Z) (t : trace) :
  (forall c, In c (title s) \/ In c (artist s) ->
             is_lead c = false /\ is_trail c = false) ->
  exists track,
    fst (fetchTrackDetails net JSON_parse toLowerCase s index t) = Returns track
    /\ (track = fallbackTrack s index
        \/ exists c, track = resolvedTrack s index c).
Proof.
  intros H.
  destruct (fetchTrackDetails_returns_without_surrogates net JSON_parse
              toLowerCase s index t H) as [track R].
  exists track. split; [exact R|].
  exact (fetchTrackDetails_result net JSON_parse toLowerCase s index t track R).
Qed.

End ResolverMore.

Lemma fetchTrackDetails_at_most_two_queries_witness :
  exists ext,
    snd (fetchTrackDetails HelloExample.net HelloExample.JSON_parse
           ascii_toLowerCase HelloExample.suggestion 0 []) = ext ++ []
    /\ (queries ext = [search_url (js "Hello%20Adele") (js "1")]
        \/ exists url2,
             secondary_url HelloExample.suggestion = Some url2
             /\ queries ext = [url2; search_url (js "Hello%20Adele") (js "1")])
    /\ (List.length (requests ext) <= 6)%nat.
Proof.
  apply (fetchTrackDetails_at_most_two_queries HelloExample.net
           HelloExample.JSON_parse ascii_toLowerCase HelloExample.suggestion
           0 [] (search_url (js "Hello%20Adele") (js "1"))).
  vm_compute. reflexivity.
Defined.

Lemma fetchTrackDetails_primary_hit_witness :
  fst (fetchTrackDetails Outage.hit HelloExample.JSON_parse ascii_toLowerCase
         HelloExample.suggestion 0 [])
  = Returns (resolvedTrack HelloExample.suggestion 0 HelloExample.lionel).
Proof.
  rewrite (fetchTrackDetails_primary_hit Outage.hit HelloExample.JSON_parse
             ascii_toLowerCase HelloExample.suggestion 0 []
             [EvFetch (search_url (js "Hello%20Adele") (js "1"));
              EvQuery (search_url (js "Hello%20Adele") (js "1"))]
             (search_url (js "Hello%20Adele") (js "1")) 1
             HelloExample.lionel []).
  - reflexivity.
  - vm_compute. reflexivity.
  - vm_compute. reflexivity.
  - lia.
Defined.

Lemma fetchTrackDetails_catalog_down_witness :
  fst (fetchTrackDetails Outage.down HelloExample.JSON_parse ascii_toLowerCase
         HelloExample.suggestion 3 [])
  = Returns (fallbackTrack HelloExample.suggestion 3).
Proof.
  rewrite (fetchTrackDetails_catalog_down Outage.down HelloExample.JSON_parse
             ascii_toLowerCase HelloExample.suggestion 3 []
             (search_url (js "Hello%20Adele") (js "1"))).
  - reflexivity.
  - vm_compute. reflexivity.
  - reflexivity.
Defined.

Lemma fetchTrackDetails_track_shape_witness :
  moodDescription (song (resolvedTrack HelloExample.suggestion 0 HelloExample.lionel))
  = js "calma"
  /\ isPlayable (resolvedTrack HelloExample.suggestion 0 HelloExample.lionel)
     = true.
Proof.
  destruct (fetchTrackDetails_track_shape HelloExample.net
              HelloExample.JSON_parse ascii_toLowerCase HelloExample.suggestion
              0 [] (resolvedTrack HelloExample.suggestion 0 HelloExample.lionel))
    as [M [_ [_ [_ P]]]].
  - vm_compute. reflexivity.
  - split; [exact M|]. apply P. eexists _, _. reflexivity.
Defined.

Lemma fetchTrackDetails_never_throws_without_surrogates_witness :
  exists track,
    fst (fetchTrackDetails Outage.down HelloExample.JSON_parse
           ascii_toLowerCase HelloExample.suggestion 0 []) = Returns track
    /\ (track = fallbackTrack HelloExample.suggestion 0
        \/ exists c, track = resolvedTrack HelloExample.suggestion 0 c).
Proof.
  apply (fetchTrackDetails_never_throws_without_surrogates Outage.down
           HelloExample.JSON_parse ascii_toLowerCase HelloExample.suggestion
           0 []).
  intros c I. vm_compute in I.
  destruct I as [I | I];
    repeat (destruct I as [<- | I]; [split; reflexivity|]); destruct I.
Defined.

(* ================================================================== *)
(** ** The prompts of the AI service *)
(* ================================================================== *)

(** X15.  The exclusion list of a follow-up prompt names the last fifty
    titles of the playlist, all of them when there are fifty or fewer. *)
Theorem excludeList_last_fifty (existingTitles : list jsstring) :
  excludeList existingTitles
  = join (js ", ") (skipn (List.length existingTitles - 50) existingTitles)
  /\ ((List.length existingTitles <= 50)%nat ->
      excludeList existingTitles = join (js ", ") existingTitles).
Proof.
  assert (E : excludeList existingTitles
              = join (js ", ")
                  (skipn (List.length existingTitles - 50) existingTitles)).
  { unfold excludeList, js_slice.
    set (len := Z.of_nat (List.length existingTitles)).
    change (-50 <? 0)%Z with true. cbv iota.
    assert (L : (len <? 0)%Z = false) by (apply Z.ltb_ge; lia). rewrite L.
    replace (Z.to_nat (Z.max (len + -50) 0))
      with (List.length existingTitles - 50)%nat by lia.
    rewrite firstn_all2; [reflexivity|]. rewrite length_skipn. lia. }
  split; [exact E|].
  intros L. rewrite E. replace (List.length existingTitles - 50)%nat with 0%nat by lia.
  reflexivity.
Qed.

(* ================================================================== *)
(** ** Navigation *)
(* ================================================================== *)

Section Navigation.

Variable toLowerCase : jsstring -> jsstring.
Variable parse_songs : jsstring -> option (list SongSuggestion).

(** A track advance that runs to its end moves the cursor and may change
    the counter; nothing else. *)
Lemma dispatch_advance_completed (d : Q) (w w' : App.world) :
  App.dispatch toLowerCase parse_songs (App.TrackAdvanced d) w = App.Completed w' ->
  exists k, w' = advance (App.ui w) (App.setConsecutiveSkips k w).
Proof.
  simpl. unfold App.handleNext.
  destruct (App.at_index _ _) as [cur|]; [|discriminate].
  assert (Same : App.setConsecutiveSkips (App.consecutiveSkips (App.ui w)) w = w)
    by (destruct w as [[p c m n k] g e]; reflexivity).
  destruct (isPlayable cur).
  - destruct (negb (Qle_bool 8 d)).
    + destruct ((3 <=? _)%Z && _) eqn:C.
      * apply andb_true_iff in C. destruct C as [_ C].
        apply negb_true_iff in C.
        cbn [App.isGenerating App.setConsecutiveSkips] in C.
        unfold App.handlePivot. cbn [App.isGenerating App.setConsecutiveSkips].
        rewrite C. discriminate.
      * intros [= <-]. eexists. reflexivity.
    + intros [= <-]. eexists. reflexivity.
  - intros [= <-]. exists (App.consecutiveSkips (App.ui w)). rewrite Same.
    reflexivity.
Qed.

Lemma rem_next (c n : Z) :
  (0 <= c < n)%Z ->
  Z.rem (c + 1) n = (if (c =? n - 1)%Z then 0 else c + 1)%Z.
Proof.
  intros H. destruct (c =? n - 1)%Z eqn:E.
  - apply Z.eqb_eq in E. replace (c + 1)%Z with n by lia. apply Z.rem_same. lia.
  - apply Z.eqb_neq in E. apply Z.rem_small. lia.
Qed.

Lemma rem_prev (c n : Z) :
  (0 <= c < n)%Z ->
  Z.rem (c - 1 + n) n = (if (c =? 0)%Z then n - 1 else c - 1)%Z.
Proof.
  intros H. destruct (c =? 0)%Z eqn:E.
  - apply Z.eqb_eq in E. subst c. rewrite Z.rem_small by lia. lia.
  - apply Z.eqb_neq in E.
    rewrite Z.rem_mod_nonneg by lia. symmetry.
    apply (Z.mod_unique (c - 1 + n) n 1 (c - 1)); lia.
Qed.

(** A track advance that runs to its end keeps the cursor in range. *)
Lemma advance_keeps_cursor_in_range (d : Q) (w w' : App.world) :
  cursor_in_range w ->
  App.dispatch toLowerCase parse_songs (App.TrackAdvanced d) w = App.Completed w' ->
  cursor_in_range w'.
Proof.
  intros R D. apply dispatch_advance_completed in D. destruct D as [k ->].
  unfold cursor_in_range in *.
  change (App.playlist (App.ui (advance (App.ui w) (App.setConsecutiveSkips k w))))
    with (App.playlist (App.ui w)).
  change (App.currentIndex
            (App.ui (advance (App.ui w) (App.setConsecutiveSkips k w))))
    with (Z.rem (App.currentIndex (App.ui w) + 1)
                (Z.of_nat (List.length (App.playlist (App.ui w))))).
  rewrite rem_next by exact R.
  destruct (_ =? _)%Z eqn:E; [lia | apply Z.eqb_neq in E; lia].
Qed.

(** X16.  The cursor wraps at both ends and never leaves the playlist:
    a track advance that runs to its end moves it to the next index and
    from the last index to 0; [handlePrev] moves it to the previous
    index and from 0 to the last index, and undoes an advance. *)
Theorem cursor_wraparound (w : App.world) :
  cursor_in_range w ->
  let n := Z.of_nat (List.length (App.playlist (App.ui w))) in
  let c := App.currentIndex (App.ui w) in
  (forall d w',
      App.dispatch toLowerCase parse_songs (App.TrackAdvanced d) w
        = App.Completed w' ->
      App.currentIndex (App.ui w') = (if (c =? n - 1)%Z then 0 else c + 1)%Z
      /\ cursor_in_range w'
      /\ exists w'', handlePrev (App.ui w') w' = Some w''
                     /\ App.currentIndex (App.ui w'') = c)
  /\ exists w',
       handlePrev (App.ui w) w = Some w'
       /\ App.currentIndex (App.ui w') = (if (c =? 0)%Z then n - 1 else c - 1)%Z
       /\ cursor_in_range w'.
Proof.
  intros R n c. unfold cursor_in_range in R. fold n c in R. split.
  - intros d w' D. apply dispatch_advance_completed in D. destruct D as [k ->].
    assert (Nx : App.currentIndex
                   (App.ui (advance (App.ui w) (App.setConsecutiveSkips k w)))
                 = (if (c =? n - 1)%Z then 0 else c + 1)%Z)
      by (simpl; fold n c; apply rem_next; exact R).
    split; [exact Nx|]. split.
    + unfold cursor_in_range. rewrite Nx.
      change (App.playlist
                (App.ui (advance (App.ui w) (App.setConsecutiveSkips k w))))
        with (App.playlist (App.ui w)). fold n.
      destruct (c =? n - 1)%Z eqn:E; [lia | apply Z.eqb_neq in E; lia].
    + unfold handlePrev. simpl App.playlist.
      destruct (App.playlist (App.ui w)) as [|p l] eqn:P;
        [subst n; simpl in R; lia|].
      eexists. split; [reflexivity|].
      cbn [App.currentIndex App.ui App.setCurrentIndex advance
           App.setConsecutiveSkips App.playlist].
      rewrite P. fold n. fold c.
      change (Z.of_nat (List.length (p :: l))) with n.
      rewrite rem_next by exact R.
      destruct (c =? n - 1)%Z eqn:E.
      * apply Z.eqb_eq in E. rewrite rem_prev by lia.
        change (0 =? 0)%Z with true. cbv iota. lia.
      * apply Z.eqb_neq in E. rewrite rem_prev by lia.
        destruct (c + 1 =? 0)%Z eqn:E0; [apply Z.eqb_eq in E0; lia | lia].
  - unfold handlePrev.
    destruct (App.playlist (App.ui w)) as [|p l] eqn:P;
      [subst n; simpl in R; lia|].
    eexists. split; [reflexivity|].
    assert (Pv : Z.rem (c - 1 + n) n = (if (c =? 0)%Z then n - 1 else c - 1)%Z)
      by (apply rem_prev; exact R).
    split.
    + simpl. exact Pv.
    + unfold cursor_in_range.
      cbn [App.currentIndex App.ui App.setCurrentIndex App.playlist].
      rewrite ?P. fold c.
      replace (Z.of_nat (List.length (p :: l))) with n
        by (subst n; rewrite ?P; reflexivity).
      rewrite Pv.
      destruct (c =? 0)%Z eqn:E; [lia | apply Z.eqb_neq in E; lia].
Qed.

End Navigation.

Lemma cursor_wraparound_witness :
  exists w',
    handlePrev (App.ui Session.world0) Session.world0 = Some w'
    /\ App.currentIndex (App.ui w') = 1%Z
    /\ cursor_in_range w'.
Proof.
  apply (cursor_wraparound ascii_toLowerCase Session.parse_songs Session.world0).
  unfold cursor_in_range. simpl. lia.
Defined.

(* ================================================================== *)
(** ** The backfill pass *)
(* ================================================================== *)

Section BackfillFacts.

Lemma length_set_nth {A} (x : A) (l : list A) :
  forall n, List.length (set_nth n x l) = List.length l.
Proof.
  induction l as [|y l IH]; intros [|n]; simpl; try reflexivity.
  rewrite IH. reflexivity.
Qed.

Lemma nth_error_set_nth_same {A} (x : A) (l : list A) :
  forall n, (n < List.length l)%nat -> nth_error (set_nth n x l) n = Some x.
Proof.
  induction l as [|y l IH]; intros [|n] H; simpl in *; try lia; auto.
  apply IH. lia.
Qed.

Lemma nth_error_set_nth_other {A} (x : A) (l : list A) :
  forall n m, m <> n -> nth_error (set_nth n x l) m = nth_error l m.
Proof.
  induction l as [|y l IH]; intros [|n] [|m] H; simpl; try reflexivity;
    try congruence.
  apply IH. congruence.
Qed.

Lemma set_nth_app {A} (x p : A) (front rest : list A) :
  set_nth (List.length front) x (front ++ p :: rest) = front ++ x :: rest.
Proof. induction front as [|y front IH]; simpl; [|rewrite IH]; reflexivity. Qed.

Lemma at_index_length {A} (front : list A) (p : A) (rest : list A) :
  App.at_index (front ++ p :: rest) (Z.of_nat (List.length front)) = Some p.
Proof.
  unfold App.at_index.
  destruct (Z.of_nat (List.length front) <? 0)%Z eqn:E;
    [apply Z.ltb_lt in E; lia|].
  rewrite Nat2Z.id, nth_error_app2, Nat.sub_diag by lia. reflexivity.
Qed.

Lemma backfill_write_length (index : Z) (track : Track) (prev : list Track) :
  List.length (backfill_write index track prev) = List.length prev.
Proof.
  unfold backfill_write. destruct (App.at_index prev index); [|reflexivity].
  apply length_set_nth.
Qed.

Lemma backfill_write_other (index : Z) (track : Track) (prev : list Track)
    (j : Z) :
  j <> index ->
  App.at_index (backfill_write index track prev) j = App.at_index prev j.
Proof.
  intros J. unfold backfill_write.
  destruct (App.at_index prev index) as [old|] eqn:E; [|reflexivity].
  unfold App.at_index in *.
  destruct (index <? 0)%Z eqn:N; [discriminate|]. apply Z.ltb_ge in N.
  destruct (j <? 0)%Z eqn:Nj; [reflexivity|]. apply Z.ltb_ge in Nj.
  apply nth_error_set_nth_other. lia.
Qed.

(** X17.  The write of the backfill pass keeps the length of the
    playlist and every entry but the one at its index; it does nothing
    when there is no entry at that index (a negative index, or one past
    the end), and puts the resolved Track there otherwise. *)
Theorem backfill_write_frame (index : Z) (track : Track) (prev : list Track) :
  List.length (backfill_write index track prev) = List.length prev
  /\ (forall j, j <> index ->
                App.at_index (backfill_write index track prev) j
                = App.at_index prev j)
  /\ (App.at_index prev index = None -> backfill_write index track prev = prev)
  /\ (forall old, App.at_index prev index = Some old ->
                  App.at_index (backfill_write index track prev) index
                  = Some track).
Proof.
  split; [apply backfill_write_length|].
  split; [intros j; apply backfill_write_other|].
  unfold backfill_write. split.
  - intros ->. reflexivity.
  - intros old E. rewrite E. unfold App.at_index in *.
    destruct (index <? 0)%Z eqn:N; [discriminate|].
    apply nth_error_set_nth_same. apply nth_error_Some. congruence.
Qed.

Variable net : trace -> jsstring -> http_reply.
Variable JSON_parse : jsstring -> option data.
Variable toLowerCase : jsstring -> jsstring.

Lemma actualIndex_base (startIndex currentLength i : Z) :
  actualIndex startIndex currentLength i
  = (backfill_base startIndex currentLength + i)%Z.
Proof.
  unfold actualIndex, backfill_base. destruct (startIndex =? 1)%Z; lia.
Qed.

(** Whatever its outcome, the loop keeps the length of the playlist, the
    entries before its current index and everything but the playlist. *)
Lemma backfill_loop_frame (startIndex currentLength : Z)
    (rest : list SongSuggestion) :
  forall i t w r t' w',
    backfill_loop net JSON_parse toLowerCase startIndex currentLength rest i t w
      = (r, t', w') ->
    List.length (App.playlist (App.ui w')) = List.length (App.playlist (App.ui w))
    /\ (forall j, (j < backfill_base startIndex currentLength + i)%Z ->
                  App.at_index (App.playlist (App.ui w')) j
                  = App.at_index (App.playlist (App.ui w)) j)
    /\ App.isGenerating w' = App.isGenerating w
    /\ App.effects w' = App.effects w
    /\ App.currentIndex (App.ui w') = App.currentIndex (App.ui w)
    /\ App.consecutiveSkips (App.ui w') = App.consecutiveSkips (App.ui w).
Proof.
  induction rest as [|s rest IH]; intros i t w r t' w' H; simpl in H.
  - injection H as _ _ <-. repeat split.
  - destruct (fetchTrackDetails net JSON_parse toLowerCase s
                (actualIndex startIndex currentLength i) (EvSleep 1200 :: t))
      as [[track|e] t1].
    + apply IH in H. destruct H as [L [F [G [E [C K]]]]].
      simpl in L, F, G, E, C, K.
      split; [rewrite L; apply backfill_write_length|]. split; [|auto].
      intros j J. rewrite F by lia. apply backfill_write_other.
      rewrite actualIndex_base. lia.
    + injection H as _ _ <-. repeat split.
Qed.

(** When the loop runs to its end over a playlist whose entries from
    its current index on stand for the suggestions left, each of them
    is replaced by the Track the resolver returned for its suggestion. *)
Lemma backfill_loop_resolves (startIndex currentLength : Z)
    (rest : list SongSuggestion) :
  forall i t w t' w' front pending,
    App.playlist (App.ui w) = front ++ pending ->
    Z.of_nat (List.length front)
      = (backfill_base startIndex currentLength + i)%Z ->
    List.length pending = List.length rest ->
    backfill_loop net JSON_parse toLowerCase startIndex currentLength rest i t w
      = (Returns tt, t', w') ->
    exists resolved,
      App.playlist (App.ui w') = front ++ resolved
      /\ Forall2 (fun track s =>
                    exists index t0,
                      fst (fetchTrackDetails net JSON_parse toLowerCase s index t0)
                      = Returns track)
                 resolved rest.
Proof.
  induction rest as [|s rest IH]; intros i t w t' w' front pending P F L H;
    simpl in H.
  - injection H as _ <-. destruct pending; [|discriminate].
    exists []. split; [exact P | constructor].
  - destruct pending as [|p pending]; [discriminate|].
    destruct (fetchTrackDetails net JSON_parse toLowerCase s
                (actualIndex startIndex currentLength i) (EvSleep 1200 :: t))
      as [[track|e] t1] eqn:R; [|discriminate].
    assert (W : backfill_write (actualIndex startIndex currentLength i) track
                  (App.playlist (App.ui w))
                = (front ++ [track]) ++ pending).
    { rewrite actualIndex_base, <- F, P. unfold backfill_write.
      rewrite at_index_length, Nat2Z.id, set_nth_app, <- app_assoc. reflexivity. }
    apply (IH (i + 1)%Z t1 _ t' w' (front ++ [track]) pending) in H.
    + destruct H as [resolved [E Fa]]. exists (track :: resolved).
      split; [rewrite E, <- app_assoc; reflexivity|].
      constructor; [|exact Fa].
      exists (actualIndex startIndex currentLength i), (EvSleep 1200 :: t).
      rewrite R. reflexivity.
    + simpl. exact W.
    + rewrite length_app. simpl. lia.
    + simpl in L. lia.
Qed.

(** X18.  A backfill pass, whether it runs to its end or stops on an
    error, keeps the length of the playlist and every entry before its
    first index, and touches nothing but the playlist: not the lock, the
    cursor, the skip counter or the effects. *)
Theorem fetchRemainingTracks_frame (suggestions : list SongSuggestion)
    (startIndex currentLength : Z) (t : trace) (w : App.world)
    (r : completion unit) (t' : trace) (w' : App.world) :
  fetchRemainingTracks net JSON_parse toLowerCase suggestions startIndex
    currentLength t w = (r, t', w') ->
  List.length (App.playlist (App.ui w')) = List.length (App.playlist (App.ui w))
  /\ (forall j, (j < backfill_base startIndex currentLength + startIndex)%Z ->
                App.at_index (App.playlist (App.ui w')) j
                = App.at_index (App.playlist (App.ui w)) j)
  /\ App.isGenerating w' = App.isGenerating w
  /\ App.effects w' = App.effects w
  /\ App.currentIndex (App.ui w') = App.currentIndex (App.ui w)
  /\ App.consecutiveSkips (App.ui w') = App.consecutiveSkips (App.ui w).
Proof. unfold fetchRemainingTracks. apply backfill_loop_frame. Qed.

Lemma length_placeholders (len now : Z) (songs : list SongSuggestion) :
  forall idx, List.length (App.placeholders len now idx songs) = List.length songs.
Proof.
  induction songs as [|s songs IH]; intros idx; simpl; [|rewrite IH]; reflexivity.
Qed.

(** X19.  Appending a batch and backfilling it compose: the pass that
    [addSongsToPlaylist] starts for the playlist it sees, once run to
    its end, has replaced each appended placeholder by the Track the
    resolver returned for its suggestion, in order, and left the tracks
    that were there before as they were. *)
Theorem append_then_backfill (now : Z) (newSongs : list SongSuggestion)
    (w : App.world) (t t' : trace) (w' : App.world) :
  let unique := App.uniqueSuggestions toLowerCase (App.playlist (App.ui w))
                  newSongs in
  let len := Z.of_nat (List.length (App.playlist (App.ui w))) in
  let appended := App.addSongsToPlaylist toLowerCase (App.playlist (App.ui w))
                    now newSongs w in
  unique <> [] ->
  fetchRemainingTracks net JSON_parse toLowerCase unique 0 len t appended
    = (Returns tt, t', w') ->
  In (App.Backfill unique 0 len) (App.effects appended)
  /\ exists resolved,
       App.playlist (App.ui w') = App.playlist (App.ui w) ++ resolved
       /\ Forall2 (fun track s =>
                     exists index t0,
                       fst (fetchTrackDetails net JSON_parse toLowerCase s index t0)
                       = Returns track)
                  resolved unique.
Proof.
  intros unique len appended N H. split.
  - subst appended. unfold App.addSongsToPlaylist. fold unique.
    destruct unique as [|u us]; [congruence|]. left. reflexivity.
  - unfold fetchRemainingTracks in H. simpl skipn in H.
    apply (backfill_loop_resolves 0 len unique 0%Z t appended t' w'
             (App.playlist (App.ui w))
             (App.placeholders len now 0 unique)).
    + subst appended. apply addSongsToPlaylist_playlist.
    + unfold backfill_base. simpl. subst len. lia.
    + apply length_placeholders.
    + exact H.
Qed.

(** X30.  Seeding and backfilling compose: on a playlist made of a
    first track and one placeholder per remaining song, the pass started
    from index 1, once run to its end, has left the first track alone
    and replaced each placeholder by the Track the resolver returned for
    its song, in the order of the songs. *)
Theorem seed_then_backfill (first : SongSuggestion) (rest : list SongSuggestion)
    (firstTrack : Track) (pending : list Track) (currentLength : Z)
    (t t' : trace) (w w' : App.world) :
  App.playlist (App.ui w) = firstTrack :: pending ->
  List.length pending = List.length rest ->
  fetchRemainingTracks net JSON_parse toLowerCase (first :: rest) 1
    currentLength t w = (Returns tt, t', w') ->
  exists resolved,
    App.playlist (App.ui w') = firstTrack :: resolved
    /\ Forall2 (fun track s =>
                  exists index t0,
                    fst (fetchTrackDetails net JSON_parse toLowerCase s index t0)
                    = Returns track)
               resolved rest.
Proof.
  intros P L H. unfold fetchRemainingTracks in H. simpl skipn in H.
  apply (backfill_loop_resolves 1 currentLength rest 1%Z t w t' w'
           [firstTrack] pending); auto.
Qed.

End BackfillFacts.

Lemma fetchRemainingTracks_frame_witness :
  List.length
    (App.playlist
       (App.ui (snd (fetchRemainingTracks HelloExample.net HelloExample.JSON_parse
                       ascii_toLowerCase [Upload.hello; Upload.hello] 1 2 []
                       Session.world0))))
  = 2%nat.
Proof.
  destruct (fetchRemainingTracks_frame HelloExample.net HelloExample.JSON_parse
              ascii_toLowerCase [Upload.hello; Upload.hello] 1 2 []
              Session.world0
              (fst (fst (fetchRemainingTracks HelloExample.net
                           HelloExample.JSON_parse ascii_toLowerCase
                           [Upload.hello; Upload.hello] 1 2 [] Session.world0)))
              (snd (fst (fetchRemainingTracks HelloExample.net
                           HelloExample.JSON_parse ascii_toLowerCase
                           [Upload.hello; Upload.hello] 1 2 [] Session.world0)))
              (snd (fetchRemainingTracks HelloExample.net
                      HelloExample.JSON_parse ascii_toLowerCase
                      [Upload.hello; Upload.hello] 1 2 [] Session.world0)))
    as [L _].
  - vm_compute. reflexivity.
  - exact L.
Defined.

Lemma append_then_backfill_witness :
  exists resolved,
    App.playlist
      (App.ui (snd (fetchRemainingTracks HelloExample.net HelloExample.JSON_parse
                      ascii_toLowerCase [Upload.hello] 0 2 []
                      (App.addSongsToPlaylist ascii_toLowerCase
                         (App.playlist (App.ui Session.world0))
                         1700000000000%Z [Upload.hello] Session.world0))))
    = App.playlist (App.ui Session.world0) ++ resolved
    /\ List.length resolved = 1%nat.
Proof.
  destruct (append_then_backfill HelloExample.net HelloExample.JSON_parse
              ascii_toLowerCase 1700000000000%Z [Upload.hello] Session.world0 []
              (snd (fst (fetchRemainingTracks HelloExample.net
                           HelloExample.JSON_parse ascii_toLowerCase
                           [Upload.hello] 0 2 []
                           (App.addSongsToPlaylist ascii_toLowerCase
                              (App.playlist (App.ui Session.world0))
                              1700000000000%Z [Upload.hello] Session.world0))))
              (snd (fetchRemainingTracks HelloExample.net
                      HelloExample.JSON_parse ascii_toLowerCase
                      [Upload.hello] 0 2 []
                      (App.addSongsToPlaylist ascii_toLowerCase
                         (App.playlist (App.ui Session.world0))
                         1700000000000%Z [Upload.hello] Session.world0))))
    as [_ [resolved [P F]]].
  - vm_compute. discriminate.
  - vm_compute. reflexivity.
  - exists resolved. split; [exact P|].
    apply Forall2_length in F. exact F.
Defined.

Lemma seed_then_backfill_witness :
  exists resolved,
    App.playlist
      (App.ui (snd (fetchRemainingTracks HelloExample.net HelloExample.JSON_parse
                      ascii_toLowerCase [Upload.tears; Upload.hello] 1 2 []
                      Session.world0)))
    = Session.blinding :: resolved.
Proof.
  destruct (seed_then_backfill HelloExample.net HelloExample.JSON_parse
              ascii_toLowerCase Upload.tears [Upload.hello] Session.blinding
              [Session.levitating] 2 []
              (snd (fst (fetchRemainingTracks HelloExample.net
                           HelloExample.JSON_parse ascii_toLowerCase
                           [Upload.tears; Upload.hello] 1 2 [] Session.world0)))
              Session.world0
              (snd (fetchRemainingTracks HelloExample.net
                      HelloExample.JSON_parse ascii_toLowerCase
                      [Upload.tears; Upload.hello] 1 2 [] Session.world0)))
    as [resolved [P _]].
  - reflexivity.
  - reflexivity.
  - vm_compute. reflexivity.
  - exists resolved. exact P.
Defined.

(* ================================================================== *)
(** ** Invariants of the player *)
(* ================================================================== *)

Section PlayerInvariants.

Variable toLowerCase : jsstring -> jsstring.
Variable parse_songs : jsstring -> option (list SongSuggestion).

Lemma addSongsToPlaylist_cursor (snapshot : list Track) (now : Z)
    (newSongs : list SongSuggestion) (w : App.world) :
  App.currentIndex (App.ui (App.addSongsToPlaylist toLowerCase snapshot now newSongs w))
  = App.currentIndex (App.ui w).
Proof.
  unfold App.addSongsToPlaylist. destruct (0 <? _)%nat; reflexivity.
Qed.

Lemma cursor_in_range_grow (w w' : App.world) (added : list Track) :
  App.playlist (App.ui w') = App.playlist (App.ui w) ++ added ->
  App.currentIndex (App.ui w') = App.currentIndex (App.ui w) ->
  cursor_in_range w -> cursor_in_range w'.
Proof.
  unfold cursor_in_range. intros P C R. rewrite P, C, length_app. lia.
Qed.

Lemma refine_resume_appends (snap : list Track) :
  appends_in_range 0
    (fun reply now w' =>
       App.setGenerating false
         match getRefinedSongs parse_songs reply with
         | Returns newSuggestions =>
             App.addSongsToPlaylist toLowerCase snap now newSuggestions w'
         | Throws _ => w'
         end).
Proof.
  intros reply now w _.
  destruct (getRefinedSongs parse_songs reply) as [songs|e].
  - split.
    + eexists. simpl. apply addSongsToPlaylist_playlist.
    + apply cursor_in_range_grow
        with (added := App.placeholders (Z.of_nat (List.length snap)) now 0
                         (App.uniqueSuggestions toLowerCase snap songs)).
      * simpl. apply addSongsToPlaylist_playlist.
      * simpl. apply addSongsToPlaylist_cursor.
  - split; [exists []; simpl; rewrite app_nil_r; reflexivity | auto].
Qed.

Lemma pivot_resume_appends (snap : App.state) :
  App.playlist snap <> [] ->
  appends_in_range (List.length (App.playlist snap))
    (fun reply now w' =>
       advance snap
         (App.setGenerating false
            match getPivotSongs parse_songs reply with
            | Returns pivotSongs =>
                App.addSongsToPlaylist toLowerCase (App.playlist snap) now
                  pivotSongs w'
            | Throws _ => w'
            end)).
Proof.
  intros NE reply now w F.
  assert (Pos : (0 < Z.of_nat (List.length (App.playlist snap)))%Z)
    by (destruct (App.playlist snap); [congruence | simpl; lia]).
  assert (P : exists added,
             App.playlist
               (App.ui match getPivotSongs parse_songs reply with
                       | Returns pivotSongs =>
                           App.addSongsToPlaylist toLowerCase (App.playlist snap)
                             now pivotSongs w
                       | Throws _ => w
                       end)
             = App.playlist (App.ui w) ++ added).
  { destruct (getPivotSongs parse_songs reply) as [songs|e].
    - eexists. apply addSongsToPlaylist_playlist.
    - exists []. rewrite app_nil_r. reflexivity. }
  assert (C : App.currentIndex
                (App.ui match getPivotSongs parse_songs reply with
                        | Returns pivotSongs =>
                            App.addSongsToPlaylist toLowerCase (App.playlist snap)
                              now pivotSongs w
                        | Throws _ => w
                        end)
              = App.currentIndex (App.ui w)).
  { destruct (getPivotSongs parse_songs reply) as [songs|e];
      [apply addSongsToPlaylist_cursor | reflexivity]. }
  destruct P as [added P]. split.
  - exists added. simpl. exact P.
  - intros R. unfold cursor_in_range in *. simpl. rewrite P, C, length_app.
    assert (B : (0 <= Z.rem (App.currentIndex (App.ui w) + 1)
                       (Z.of_nat (List.length (App.playlist snap)))
                 < Z.of_nat (List.length (App.playlist snap)))%Z)
      by (apply Z.rem_bound_pos; lia).
    lia.
Qed.

(** A handler that runs to its end leaves the playlist alone and the
    cursor in range; one that stops on an error found no track under
    the cursor; one that is suspended has left the playlist and the
    cursor alone, and will append and keep the cursor in range. *)
Lemma dispatch_playlist (e : App.event) (w : App.world) :
  match App.dispatch toLowerCase parse_songs e w with
  | App.Completed w' =>
      App.playlist (App.ui w') = App.playlist (App.ui w)
      /\ (cursor_in_range w -> cursor_in_range w')
  | App.Crashed w' => ~ cursor_in_range w
  | App.Awaiting w' req resume =>
      App.playlist (App.ui w') = App.playlist (App.ui w)
      /\ App.currentIndex (App.ui w') = App.currentIndex (App.ui w)
      /\ exists floor,
           (floor <= List.length (App.playlist (App.ui w)))%nat
           /\ appends_in_range floor resume
  end.
Proof.
  destruct e as [d|track].
  - destruct (App.dispatch toLowerCase parse_songs (App.TrackAdvanced d) w)
      as [w'|w'|w' req resume] eqn:D.
    + split.
      * apply dispatch_advance_completed in D. destruct D as [k ->]. reflexivity.
      * intros R.
        exact (advance_keeps_cursor_in_range toLowerCase parse_songs d w w' R D).
    + simpl in D. unfold App.handleNext in D.
      destruct (App.at_index _ _) as [cur|] eqn:A.
      * destruct (isPlayable cur); [|discriminate].
        destruct (negb (Qle_bool 8 d)); [|discriminate].
        destruct (_ && _); [|discriminate].
        unfold App.handlePivot in D. destruct (App.isGenerating _); discriminate.
      * intros [Lo Hi]. unfold App.at_index in A.
        destruct (_ <? 0)%Z eqn:N; [apply Z.ltb_lt in N; lia|].
        apply nth_error_None in A. lia.
    + simpl in D. unfold App.handleNext in D.
      destruct (App.at_index _ _) as [cur|] eqn:A; [|discriminate].
      destruct (isPlayable cur); [|discriminate].
      destruct (negb (Qle_bool 8 d)); [|discriminate].
      destruct (_ && _); [|discriminate].
      unfold App.handlePivot in D.
      destruct (App.isGenerating _); [discriminate|].
      injection D as <- _ <-.
      split; [reflexivity|]. split; [reflexivity|].
      exists (List.length (App.playlist (App.ui w))). split; [lia|].
      apply pivot_resume_appends.
      intros E. rewrite E in A. unfold App.at_index in A.
      destruct (_ <? 0)%Z; [discriminate|]. destruct (Z.to_nat _); discriminate.
  - simpl. unfold App.handleLike. destruct (App.isGenerating w).
    + split; auto.
    + split; [reflexivity|]. split; [reflexivity|].
      exists 0%nat. split; [lia|]. apply refine_resume_appends.
Qed.

Lemma step_playlist_grows (c0 c c' : App.config) :
  App.step toLowerCase parse_songs c c' ->
  playlist_grows c0 c -> playlist_grows c0 c'.
Proof.
  intros S [R [[added P] F]].
  destruct S as [c e w' D | c e w' D | c e w' req resume D
                 | c before resume after reply now E].
  - pose proof (dispatch_playlist e (App.now_world c)) as H. rewrite D in H.
    destruct H as [Pw Rw]. split; [apply Rw, R|]. simpl.
    split; [exists added; rewrite Pw; exact P|]. rewrite Pw. exact F.
  - pose proof (dispatch_playlist e (App.now_world c)) as H. rewrite D in H.
    contradiction.
  - pose proof (dispatch_playlist e (App.now_world c)) as H. rewrite D in H.
    destruct H as [Pw [Cw [floor [Fl A]]]]. split; [|simpl; split].
    + unfold cursor_in_range in *. simpl. rewrite Pw, Cw. exact R.
    + exists added. rewrite Pw. exact P.
    + rewrite Pw. constructor; [exists floor; split; assumption | exact F].
  - rewrite E in F. apply Forall_app in F. destruct F as [Fb Fa0].
    inversion Fa0 as [|x l [floor [Fl A]] Fa]; subst.
    destruct (A reply now (App.now_world c) Fl) as [[more Pm] Rm].
    split; [apply Rm, R|]. simpl. split.
    + exists (added ++ more). rewrite Pm, P, app_assoc. reflexivity.
    + apply Forall_app. split.
      * eapply Forall_impl; [|exact Fb]. intros k [fl [L K]].
        exists fl. split; [rewrite Pm, length_app; lia | exact K].
      * eapply Forall_impl; [|exact Fa]. intros k [fl [L K]].
        exists fl. split; [rewrite Pm, length_app; lia | exact K].
Qed.

(** X20.  From a state with a track under the cursor and no flow in
    flight, whatever likes, track advances and replies of the AI
    service follow: the playlist only grows at its end (no track is
    removed or moved), the cursor always points at a track, and no
    handler stops on an error. *)
Theorem playlist_append_only (c0 c : App.config) :
  cursor_in_range (App.now_world c0) ->
  App.inflight c0 = [] ->
  App.reachable toLowerCase parse_songs c0 c ->
  (exists added,
      App.playlist (App.ui (App.now_world c))
      = App.playlist (App.ui (App.now_world c0)) ++ added)
  /\ cursor_in_range (App.now_world c)
  /\ forall e w', App.dispatch toLowerCase parse_songs e (App.now_world c)
                  <> App.Crashed w'.
Proof.
  intros R0 I0 H.
  assert (G : playlist_grows c0 c).
  { induction H as [|c c' H IH S].
    - split; [exact R0|]. split; [exists []; rewrite app_nil_r; reflexivity|].
      rewrite I0. constructor.
    - exact (step_playlist_grows c0 c c' S IH). }
  destruct G as [R [P _]]. split; [exact P|]. split; [exact R|].
  intros e w' D. pose proof (dispatch_playlist e (App.now_world c)) as X.
  rewrite D in X. exact (X R).
Qed.

End PlayerInvariants.

Lemma playlist_append_only_witness :
  (exists added,
      App.playlist (App.ui Session.world1)
      = App.playlist (App.ui Session.world0) ++ added)
  /\ cursor_in_range Session.world1.
Proof.
  assert (R : App.reachable ascii_toLowerCase Session.parse_songs
                Session.config0 Session.config1).
  { eapply App.reach_step; [apply App.reach_refl|].
    exact (App.step_call ascii_toLowerCase Session.parse_songs
             Session.config0 (App.TrackLiked Session.blinding) _ _ _ eq_refl). }
  destruct (playlist_append_only ascii_toLowerCase Session.parse_songs
              Session.config0 Session.config1) as [P [C _]].
  - unfold cursor_in_range. simpl. lia.
  - reflexivity.
  - exact R.
  - split; [exact P | exact C].
Defined.

(* ================================================================== *)
(** ** More on the engagement policy *)
(* ================================================================== *)

Section EngagementMore.

Variable toLowerCase : jsstring -> jsstring.
Variable parse_songs : jsstring -> option (list SongSuggestion).

Lemma at_index_In {A} (l : list A) (i : Z) (x : A) :
  App.at_index l i = Some x -> In x l.
Proof.
  unfold App.at_index. destruct (i <? 0)%Z; [discriminate|].
  apply nth_error_In.
Qed.

Lemma cursor_in_range_current (w : App.world) :
  cursor_in_range w ->
  exists cur,
    App.at_index (App.playlist (App.ui w)) (App.currentIndex (App.ui w)) = Some cur.
Proof.
  intros [Lo Hi]. unfold App.at_index.
  destruct (_ <? 0)%Z eqn:N; [apply Z.ltb_lt in N; lia|].
  destruct (nth_error _ _) as [cur|] eqn:E; [eauto|].
  apply nth_error_None in E. lia.
Qed.

(** X21.  Skipping tracks that cannot be played never counts: on a
    playlist without a playable track, any run of track advances,
    however fast, runs to its end, calls no AI service, and leaves the
    skip counter, the lock and the playlist as they were. *)
Theorem unplayable_never_pivots (durations : list Q) :
  forall w,
    cursor_in_range w ->
    Forall (fun t => isPlayable t = false) (App.playlist (App.ui w)) ->
    exists w',
      advance_all toLowerCase parse_songs durations w = Some w'
      /\ App.effects w' = App.effects w
      /\ App.consecutiveSkips (App.ui w') = App.consecutiveSkips (App.ui w)
      /\ App.isGenerating w' = App.isGenerating w
      /\ App.playlist (App.ui w') = App.playlist (App.ui w).
Proof.
  induction durations as [|d rest IH]; intros w R U.
  - exists w. repeat split.
  - destruct (cursor_in_range_current w R) as [cur A].
    assert (P : isPlayable cur = false).
    { rewrite Forall_forall in U. apply U. eapply at_index_In. exact A. }
    assert (D : App.dispatch toLowerCase parse_songs (App.TrackAdvanced d) w
                = App.Completed (advance (App.ui w) w)).
    { simpl. unfold App.handleNext. rewrite A, P. reflexivity. }
    pose proof (advance_keeps_cursor_in_range toLowerCase parse_songs d w _ R D)
      as R'.
    destruct (IH (advance (App.ui w) w) R' U) as [w' [E [F [C [G Pl]]]]].
    exists w'. cbn [advance_all]. rewrite D. repeat split; assumption.
Qed.

(** X22.  A pivot that the lock holds back is not lost: the fast skip
    that reaches the threshold while the lock is held runs to its end
    and leaves the counter at the threshold or above, so the next fast
    skip of a playable track, once the lock is free, starts the pivot. *)
Theorem blocked_pivot_fires_later (w : App.world) (d d' : Q) :
  all_playable w ->
  App.isGenerating w = true ->
  (2 <= App.consecutiveSkips (App.ui w))%Z ->
  (d < 8)%Q -> (d' < 8)%Q ->
  exists w1,
    App.dispatch toLowerCase parse_songs (App.TrackAdvanced d) w = App.Completed w1
    /\ App.consecutiveSkips (App.ui w1) = (App.consecutiveSkips (App.ui w) + 1)%Z
    /\ App.ai_calls w1 = App.ai_calls w
    /\ exists w2 mood skipped excluded resume,
         App.dispatch toLowerCase parse_songs (App.TrackAdvanced d')
           (App.setGenerating false w1)
         = App.Awaiting w2 (PivotRequest mood skipped excluded) resume
         /\ App.consecutiveSkips (App.ui w2) = 0%Z.
Proof.
  intros A G S H H'. destruct (all_playable_current w A) as [cur [E P]].
  set (w1 := advance (App.ui w)
               (App.setConsecutiveSkips (App.consecutiveSkips (App.ui w) + 1) w)).
  exists w1. split.
  - simpl. unfold App.handleNext. rewrite E, P, (Qle_bool_false d H).
    cbn [negb App.isGenerating App.setConsecutiveSkips]. rewrite G.
    rewrite andb_false_r. reflexivity.
  - split; [reflexivity|]. split; [reflexivity|].
    apply (handleNext_pivot toLowerCase parse_songs
             (App.setGenerating false w1) d').
    + exact (all_playable_advance w _ A).
    + exact H'.
    + simpl. lia.
    + reflexivity.
Qed.

(** X23.  The skip that starts a pivot does not move the cursor until
    the AI service has replied: the cursor stays where it is while the
    flow is suspended, and the resumed flow moves it one step, modulo
    the length the playlist had when the skip was made. *)
Theorem pivot_delays_advance (d : Q) (w w' : App.world) (req : ai_request)
    (resume : sdk_reply -> Z -> App.world -> App.world) :
  App.dispatch toLowerCase parse_songs (App.TrackAdvanced d) w
    = App.Awaiting w' req resume ->
  App.currentIndex (App.ui w') = App.currentIndex (App.ui w)
  /\ forall reply now w2,
       App.currentIndex (App.ui (resume reply now w2))
       = Z.rem (App.currentIndex (App.ui w2) + 1)
               (Z.of_nat (List.length (App.playlist (App.ui w)))).
Proof.
  simpl. unfold App.handleNext.
  destruct (App.at_index _ _) as [cur|]; [|discriminate].
  destruct (isPlayable cur); [|discriminate].
  destruct (negb (Qle_bool 8 d)); [|discriminate].
  destruct (_ && _); [|discriminate].
  unfold App.handlePivot. destruct (App.isGenerating _); [discriminate|].
  intros [= <- _ <-]. split; [reflexivity|].
  intros reply now w2. simpl.
  destruct (getPivotSongs parse_songs reply) as [songs|e]; [|reflexivity].
  rewrite addSongsToPlaylist_cursor. reflexivity.
Qed.

End EngagementMore.

(* ================================================================== *)
(** ** Reset and upload *)
(* ================================================================== *)

Section ResetUpload.

Variable toLowerCase : jsstring -> jsstring.
Variable parse_songs : jsstring -> option (list SongSuggestion).
Variable parse_response : jsstring -> option GeminiResponse.

(** X24.  A reset does not cancel a flow in flight.  After a like, a
    reset empties the playlist and frees the lock although the AI call
    is still pending: a second like starts a second call at once, and
    the reply to the first one appends its songs to the emptied
    playlist, deduplicated against the playlist of before the reset. *)
Theorem reset_does_not_cancel (s : session) (track track' : Track)
    (w1 : App.world) (req : ai_request)
    (resume : sdk_reply -> Z -> App.world -> App.world) :
  App.dispatch toLowerCase parse_songs (App.TrackLiked track) (world s)
    = App.Awaiting w1 req resume ->
  let s' := resetApp (on_world (fun _ => w1) s) in
  App.isGenerating (world s') = false
  /\ App.playlist (App.ui (world s')) = []
  /\ (exists w2 req2 resume2,
         App.dispatch toLowerCase parse_songs (App.TrackLiked track') (world s')
         = App.Awaiting w2 req2 resume2)
  /\ forall c text songs now,
       parse_songs (c :: text) = Some songs ->
       App.playlist (App.ui (resume (SdkText (Some (c :: text))) now (world s')))
       = App.placeholders
           (Z.of_nat (List.length (App.playlist (App.ui (world s))))) now 0
           (App.uniqueSuggestions toLowerCase (App.playlist (App.ui (world s)))
              songs).
Proof.
  simpl App.dispatch. unfold App.handleLike.
  destruct (App.isGenerating (world s)); [discriminate|].
  intros [= <- _ <-]. cbv zeta.
  split; [reflexivity|]. split; [reflexivity|]. split.
  - eexists _, _, _. reflexivity.
  - intros c text songs now P. cbn [getRefinedSongs]. rewrite P.
    cbn [App.playlist App.ui App.setGenerating].
    rewrite addSongsToPlaylist_playlist. reflexivity.
Qed.

(** X25.  However an upload goes, it ends with the lock released and
    the loading flag down.  An upload that arrives while the lock is
    held changes nothing. *)
Theorem upload_releases_lock (base64 : jsstring) (s s' : session) :
  final (handleImageUpload parse_response base64 s) s' ->
  (App.isGenerating (world s) = true -> s' = s)
  /\ (App.isGenerating (world s) = false ->
      App.isGenerating (world s') = false /\ isLoading s' = false).
Proof.
  unfold handleImageUpload. destruct (App.isGenerating (world s)) eqn:G.
  - intros F. inversion F; subst. split; [reflexivity | discriminate].
  - intros F. split; [discriminate|]. intros _.
    inversion F as [|s0 payload resume reply s1 s2 F1|]; subst.
    destruct (analyzeImageAndGetSongs parse_response reply) as [ai|].
    + destruct (songs ai) as [|first rest].
      * inversion F1; subst. split; reflexivity.
      * inversion F1 as [| |s3 sug idx resume2 result s4]; subst.
        destruct result; split; reflexivity.
    + inversion F1; subst. split; reflexivity.
Qed.

(** X26.  An upload fails when the analysis fails, when it returns no
    song, or when the resolver throws on the first song.  In each case
    the user gets one alert and is sent back to the upload screen with
    the lock released, and the playlist is left as the handler finds
    it. *)
Theorem upload_failure (base64 : jsstring) (s s1 : session)
    (payload : option jsstring)
    (resume : sdk_reply -> session -> upload_step) :
  handleImageUpload parse_response base64 s = AwaitAnalysis s1 payload resume ->
  (forall reply s2,
      analyzeImageAndGetSongs parse_response reply = None ->
      exists s3, resume reply s2 = UploadDone s3 /\ sent_back s2 s3)
  /\ (forall reply ai s2,
         analyzeImageAndGetSongs parse_response reply = Some ai ->
         songs ai = [] ->
         exists s3, resume reply s2 = UploadDone s3 /\ sent_back s2 s3)
  /\ (forall reply ai first rest s2,
         analyzeImageAndGetSongs parse_response reply = Some ai ->
         songs ai = first :: rest ->
         exists s3 resume2,
           resume reply s2 = AwaitTrack s3 first 0 resume2
           /\ forall e s4, sent_back s4 (resume2 (Throws e) s4)).
Proof.
  unfold handleImageUpload. destruct (App.isGenerating (world s)); [discriminate|].
  intros [= _ _ <-]. split; [|split].
  - intros reply s2 A. rewrite A. eexists. split; [reflexivity|].
    repeat split.
  - intros reply ai s2 A S. rewrite A, S. eexists. split; [reflexivity|].
    repeat split.
  - intros reply ai first rest s2 A S. rewrite A, S. eexists _, _.
    split; [reflexivity|]. intros e s4. repeat split.
Qed.

Lemma initialPlaylist_shape (firstTrack : Track) (songs : list SongSuggestion) :
  forall idx,
    List.length (initialPlaylist firstTrack idx songs) = List.length songs
    /\ (idx <> 0%nat ->
        List.map song (initialPlaylist firstTrack idx songs) = songs
        /\ List.map id (initialPlaylist firstTrack idx songs)
           = List.map Z.of_nat (seq idx (List.length songs))
        /\ Forall (fun t => isPlayable t = false)
                  (initialPlaylist firstTrack idx songs)).
Proof.
  induction songs as [|s songs IH]; intros idx.
  - split; [reflexivity|]. intros _. repeat split. constructor.
  - destruct (IH (S idx)) as [L T]. split; [simpl; rewrite L; reflexivity|].
    intros N. destruct T as [Ms [Mi F]]; [discriminate|].
    destruct idx as [|k]; [congruence|]. simpl.
    rewrite Ms, Mi. repeat split. constructor; [reflexivity | exact F].
Qed.

(** X27.  An upload empties the playlist, raises the loading flag and
    takes the lock before it calls the analysis.  When the analysis
    returns songs and the resolver a first track, the playlist is
    seeded in the order of the AI answer: the first track at index 0,
    then one unplayable placeholder per remaining song, carrying that
    song and its index as identifier; the cursor is at 0, the lock is
    released, and a backfill pass is started from index 1. *)
Theorem upload_seeds_playlist (base64 : jsstring) (s s1 : session)
    (payload : option jsstring)
    (resume : sdk_reply -> session -> upload_step)
    (reply : sdk_reply) (ai : GeminiResponse)
    (first : SongSuggestion) (rest : list SongSuggestion) (s2 : session) :
  handleImageUpload parse_response base64 s = AwaitAnalysis s1 payload resume ->
  analyzeImageAndGetSongs parse_response reply = Some ai ->
  songs ai = first :: rest ->
  App.playlist (App.ui (world s1)) = []
  /\ isLoading s1 = true
  /\ App.isGenerating (world s1) = true
  /\ uploadedImage s1 = Some base64
  /\ exists s3 resume2,
       resume reply s2 = AwaitTrack s3 first 0 resume2
       /\ App.moodSummary (App.ui (world s3)) = overallMood ai
       /\ forall firstTrack s4,
            let s' := resume2 (Returns firstTrack) s4 in
            exists placeholders,
              App.playlist (App.ui (world s')) = firstTrack :: placeholders
              /\ List.map song placeholders = rest
              /\ List.map id placeholders
                 = List.map Z.of_nat (seq 1 (List.length rest))
              /\ Forall (fun t => isPlayable t = false) placeholders
              /\ App.currentIndex (App.ui (world s')) = 0%Z
              /\ App.isGenerating (world s') = false
              /\ isLoading s' = false
              /\ hd_error (App.effects (world s'))
                 = Some (App.Backfill (songs ai) 1
                           (Z.of_nat (List.length (songs ai)))).
Proof.
  unfold handleImageUpload. destruct (App.isGenerating (world s)); [discriminate|].
  intros [= <- _ <-] A S.
  split; [reflexivity|]. split; [reflexivity|]. split; [reflexivity|].
  split; [reflexivity|].
  rewrite A, S. eexists _, _. split; [reflexivity|]. split; [reflexivity|].
  intros firstTrack s4. cbv zeta. unfold upload_seeded. rewrite S.
  destruct (initialPlaylist_shape firstTrack rest 1) as [L T].
  destruct T as [Ms [Mi F]]; [discriminate|].
  exists (initialPlaylist firstTrack 1 rest).
  split; [reflexivity|]. split; [exact Ms|]. split; [exact Mi|].
  split; [exact F|]. split; [reflexivity|]. split; [reflexivity|].
  split; [reflexivity|].
  simpl. rewrite L. reflexivity.
Qed.

End ResetUpload.

(* ================================================================== *)
(** ** The player *)
(* ================================================================== *)

(** X28.  The Next button of the player: a click less than 8000 ms
    after the track started is a fast skip, a click at 8000 ms or later
    is not. *)
Theorem handleNextClick_threshold (now startTime : Z) :
  Qle_bool 8 (handleNextClick now startTime) = (8000 <=? now - startTime)%Z.
Proof.
  unfold handleNextClick.
  destruct (8000 <=? now - startTime)%Z eqn:E.
  - apply Z.leb_le in E. apply Qle_bool_iff.
    apply Qle_shift_div_l; [reflexivity|].
    unfold Qle. simpl. lia.
  - apply Z.leb_gt in E. apply not_true_is_false. intros B.
    apply Qle_bool_iff in B.
    assert (L : (inject_Z (now - startTime) / 1000 < 8)%Q).
    { apply Qlt_shift_div_r; [reflexivity|]. unfold Qlt. simpl. lia. }
    exact (Qlt_not_le _ _ L B).
Qed.

Lemma unplayable_never_pivots_witness :
  exists w',
    advance_all ascii_toLowerCase Session.parse_songs [1; 1; 1; 1]%Q Upload.silent
    = Some w'
    /\ App.effects w' = []
    /\ App.consecutiveSkips (App.ui w') = 0%Z.
Proof.
  destruct (unplayable_never_pivots ascii_toLowerCase Session.parse_songs
              [1; 1; 1; 1]%Q Upload.silent) as [w' [A [E [C _]]]].
  - unfold cursor_in_range. simpl. lia.
  - repeat constructor.
  - exists w'. repeat split; assumption.
Defined.

Lemma blocked_pivot_fires_later_witness :
  exists w1,
    App.dispatch ascii_toLowerCase Session.parse_songs (App.TrackAdvanced 1)
      (App.setGenerating true Session.world0) = App.Completed w1
    /\ App.consecutiveSkips (App.ui w1) = 3%Z.
Proof.
  destruct (blocked_pivot_fires_later ascii_toLowerCase Session.parse_songs
              (App.setGenerating true Session.world0) 1 1)
    as [w1 [D [C _]]].
  - split; [simpl; lia | repeat constructor].
  - reflexivity.
  - simpl. lia.
  - reflexivity.
  - reflexivity.
  - exists w1. split; [exact D | exact C].
Defined.

Lemma pivot_delays_advance_witness :
  App.currentIndex (App.ui (outcome_world Upload.skipped)) = 0%Z
  /\ App.currentIndex
       (App.ui (outcome_resume Upload.skipped SdkRejects 0%Z
                  (outcome_world Upload.skipped))) = 1%Z.
Proof.
  destruct (pivot_delays_advance ascii_toLowerCase Session.parse_songs (1 # 2)
              Session.world0 (outcome_world Upload.skipped)
              (outcome_request Upload.skipped) (outcome_resume Upload.skipped))
    as [C R].
  - reflexivity.
  - split; [exact C|]. rewrite R. reflexivity.
Defined.

Lemma reset_does_not_cancel_witness :
  App.isGenerating
    (world (resetApp (on_world (fun _ => Session.world1) Upload.session0)))
  = false
  /\ App.playlist
       (App.ui (world (resetApp (on_world (fun _ => Session.world1)
                                  Upload.session0)))) = [].
Proof.
  destruct (reset_does_not_cancel ascii_toLowerCase Session.parse_songs
              Upload.session0 Session.blinding Session.levitating
              Session.world1 Session.request1 Session.resume1)
    as [G [P _]].
  - reflexivity.
  - split; [exact G | exact P].
Defined.

Lemma upload_releases_lock_witness :
  App.isGenerating
    (world (upload_failed (Upload.upload_session Upload.uploading))) = false.
Proof.
  destruct (upload_releases_lock Upload.parse_response Upload.photo
              Upload.session0
              (upload_failed (Upload.upload_session Upload.uploading)))
    as [_ R].
  - apply (final_analysis _ _ _ SdkRejects (Upload.upload_session Upload.uploading)).
    apply final_done.
  - exact (proj1 (R eq_refl)).
Defined.

Lemma upload_failure_witness :
  exists s3,
    Upload.upload_resume Upload.uploading NoApiKey
      (Upload.upload_session Upload.uploading) = UploadDone s3
    /\ sent_back (Upload.upload_session Upload.uploading) s3.
Proof.
  destruct (upload_failure Upload.parse_response Upload.photo Upload.session0
              (Upload.upload_session Upload.uploading)
              (Upload.upload_payload Upload.uploading)
              (Upload.upload_resume Upload.uploading)) as [F _].
  - reflexivity.
  - apply F. reflexivity.
Defined.

Lemma upload_seeds_playlist_witness :
  uploadedImage (Upload.upload_session Upload.uploading) = Some Upload.photo
  /\ exists s3 resume2,
       Upload.upload_resume Upload.uploading
         (SdkText (Some Upload.answer_text))
         (Upload.upload_session Upload.uploading)
       = AwaitTrack s3 Upload.hello 0 resume2.
Proof.
  destruct (upload_seeds_playlist Upload.parse_response Upload.photo
              Upload.session0 (Upload.upload_session Upload.uploading)
              (Upload.upload_payload Upload.uploading)
              (Upload.upload_resume Upload.uploading)
              (SdkText (Some Upload.answer_text)) Upload.answer
              Upload.hello [Upload.tears]
              (Upload.upload_session Upload.uploading))
    as [_ [_ [_ [U [s3 [resume2 [R _]]]]]]].
  - reflexivity.
  - vm_compute. reflexivity.
  - reflexivity.
  - split; [exact U|]. exists s3, resume2. exact R.
Defined.
